(** * spy-status: title classification, asleep rule and daily statistics

    A shallow embedding of the pure part of [spy-status.js] (the revision
    with the daily statistics): the title parsers, the noise and screen-off
    lookups, the asleep rule, the per-person rendering and the aggregation
    behind "看看xx今天做了什么".

    JavaScript strings are sequences of UTF-16 code units, and the regular
    expressions of the plugin have no [u] flag, so they see code units and
    not code points.  A string is therefore a list of code units here. *)

From Stdlib Require Import List NArith ZArith QArith Qround Qminmax Bool Lia.
From Stdlib Require Import Ascii String.
From Stdlib Require Import Permutation Sorted.
Import ListNotations.

Close Scope Q_scope.
Open Scope nat_scope.

(** ** JavaScript strings *)

Module JS.

Definition jsstring := list N.

Definition eqb (a b : jsstring) : bool :=
  if list_eq_dec N.eq_dec a b then true else false.

Definition isEmpty (s : jsstring) : bool :=
  match s with
  | [] => true
  | _ :: _ => false
  end.

(** [x || d] on strings: the empty string is the only falsy one. *)
Definition orElse (x d : jsstring) : jsstring :=
  if isEmpty x then d else x.

(** [x || d] where [x] may be [undefined] or [null]. *)
Definition optOr (x : option jsstring) (d : jsstring) : jsstring :=
  match x with
  | Some s => orElse s d
  | None => d
  end.

(** Literals are written as UTF-8 text and turned into UTF-16 code units. *)
Fixpoint utf16_of_utf8 (bs : list N) : jsstring :=
  match bs with
  | [] => []
  | b0 :: r0 =>
    if (b0 <? 0x80)%N then b0 :: utf16_of_utf8 r0
    else match r0 with
    | [] => []
    | b1 :: r1 =>
      if (b0 <? 0xE0)%N then
        (N.land b0 0x1F * 64 + N.land b1 0x3F)%N :: utf16_of_utf8 r1
      else match r1 with
      | [] => []
      | b2 :: r2 =>
        if (b0 <? 0xF0)%N then
          (N.land b0 0x0F * 4096 + N.land b1 0x3F * 64 + N.land b2 0x3F)%N
            :: utf16_of_utf8 r2
        else match r2 with
        | [] => []
        | b3 :: r3 =>
          let cp := (N.land b0 0x07 * 262144 + N.land b1 0x3F * 4096
                     + N.land b2 0x3F * 64 + N.land b3 0x3F)%N in
          let v := (cp - 0x10000)%N in
          (0xD800 + N.shiftr v 10)%N :: (0xDC00 + N.land v 0x3FF)%N
            :: utf16_of_utf8 r3
        end
      end
    end
  end.

Definition lit (s : string) : jsstring :=
  utf16_of_utf8 (map N_of_ascii (list_ascii_of_string s)).

(** WhiteSpace and LineTerminator code units: what [String.prototype.trim]
    removes and what [\s] matches. *)
Definition isWhiteSpace (c : N) : bool :=
  ((0x09 <=? c) && (c <=? 0x0D) || (c =? 0x20) || (c =? 0xA0) || (c =? 0x1680)
   || (0x2000 <=? c) && (c <=? 0x200A) || (c =? 0x2028) || (c =? 0x2029)
   || (c =? 0x202F) || (c =? 0x205F) || (c =? 0x3000) || (c =? 0xFEFF))%N.

Fixpoint dropWhile (p : N -> bool) (s : jsstring) : jsstring :=
  match s with
  | [] => []
  | c :: r => if p c then dropWhile p r else s
  end.

Definition trimStart (s : jsstring) : jsstring := dropWhile isWhiteSpace s.

Definition trimEnd (s : jsstring) : jsstring := rev (trimStart (rev s)).

Definition trim (s : jsstring) : jsstring := trimEnd (trimStart s).

Fixpoint startsWith (p s : jsstring) : bool :=
  match p, s with
  | [], _ => true
  | _ :: _, [] => false
  | a :: p', b :: s' => (a =? b)%N && startsWith p' s'
  end.

(** [s.indexOf(p)]: [None] stands for [-1]. *)
Fixpoint indexOf (p s : jsstring) : option nat :=
  if startsWith p s then Some 0
  else match s with
  | [] => None
  | _ :: r => option_map S (indexOf p r)
  end.

Definition includes (p s : jsstring) : bool :=
  match indexOf p s with
  | Some _ => true
  | None => false
  end.

(** [s.slice(0, i)] and [s.slice(i)] for an index inside the string. *)
Definition sliceTo (i : nat) (s : jsstring) : jsstring := firstn i s.
Definition sliceFrom (i : nat) (s : jsstring) : jsstring := skipn i s.

(** [s.split(sep)] for a non-empty separator.  [skip] counts the code units
    of a separator that was just matched and are still to be passed over;
    [acc] holds the current segment, reversed. *)
Fixpoint splitGo (sep s : jsstring) (skip : nat) (acc : jsstring)
  : list jsstring :=
  match s with
  | [] => [rev acc]
  | c :: r =>
    match skip with
    | S k => splitGo sep r k acc
    | O =>
      if startsWith sep s then rev acc :: splitGo sep r (List.length sep - 1) []
      else splitGo sep r 0 (c :: acc)
    end
  end.

Definition split (sep s : jsstring) : list jsstring := splitGo sep s 0 [].

Fixpoint join (sep : jsstring) (parts : list jsstring) : jsstring :=
  match parts with
  | [] => []
  | [p] => p
  | p :: rest => p ++ sep ++ join sep rest
  end.

(** ASCII part of [toLowerCase]. *)
Definition lowerUnit (c : N) : N :=
  if ((0x41 <=? c) && (c <=? 0x5A))%N then (c + 0x20)%N else c.

Definition toLowerCase (s : jsstring) : jsstring := map lowerUnit s.

(** Decimal digits of a natural number, as [String(n)] prints them. *)
Fixpoint digitsFuel (fuel : nat) (n : N) (acc : jsstring) : jsstring :=
  match fuel with
  | O => acc
  | S f =>
    let acc' := (0x30 + n mod 10)%N :: acc in
    if (n <? 10)%N then acc' else digitsFuel f (n / 10)%N acc'
  end.

Definition ofN (n : N) : jsstring := digitsFuel (S (N.to_nat (N.log2 n))) n [].

Definition ofZ (z : Z) : jsstring :=
  match z with
  | Zneg p => 0x2D%N :: ofN (Npos p)
  | _ => ofN (Z.to_N z)
  end.

(** [s.padStart(2, '0')] *)
Definition padStart2 (s : jsstring) : jsstring :=
  match s with
  | [] => [0x30; 0x30]%N
  | [c] => [0x30%N; c]
  | _ => s
  end.

End JS.

Import JS.

(** ** Events and constants *)

(** What [new Date(x).getTime()] gives for a truthy [access_time]. *)
Inductive jsdate :=
| InvalidDate
| TimeMs (ms : Z).

(** One row of [/api/current-status] or [/api/today-events].  A field that
    is [undefined] or [null] is [None]; [access_time] is [None] when the raw
    value is falsy. *)
Record ActivityEvent := {
  machine : option jsstring;
  window_title : option jsstring;
  app : option jsstring;
  access_time : option jsdate
}.

Definition HEARTBEAT_INTERVAL_SECONDS : Z := 60.

Definition PIMENG_PHONE_MACHINE : jsstring := lit "pimeng-iq13".
Definition PIMENG_PC_MACHINE : jsstring := lit "pimeng-pc".

Definition NOISE_APPS : list jsstring :=
  Eval vm_compute in
  map lit ["生物识别"; "系统 UI"; "Android 系统"; "系统界面"; "系统桌面";
           "搜狗输入法小米版"; "指纹UI"; "One UI 主屏幕"; "安全服务"]%string.

Definition SCREEN_OFF_APPS : list jsstring :=
  Eval vm_compute in
  map lit ["生物识别"; "系统 UI"; "Android 系统"; "系统桌面"; "指纹UI";
           "One UI 主屏幕"]%string.

Definition PC_STALE_MS : Z := 4 * 60 * 60 * 1000.

Definition RAINCORE_ZHIBA_KEYWORD : jsstring :=
  Eval vm_compute in lit "范式：起源".

Definition HIDE_PC_NAMES : list jsstring :=
  Eval vm_compute in map lit ["音落"; "夜合"]%string.

Definition SEP : jsstring := Eval vm_compute in lit " - ".
Definition NL : jsstring := [0x0A%N].
Definition UNKNOWN : jsstring := Eval vm_compute in lit "未知".

Definition RAINCORE : jsstring := Eval vm_compute in lit "雨核".
Definition PIMENG : jsstring := Eval vm_compute in lit "皮梦".
Definition ZHIBA_LINE : jsstring :=
  Eval vm_compute in NL ++ lit "雨核在推制霸呢...不要打扰他".

Definition inList (s : jsstring) (l : list jsstring) : bool :=
  existsb (JS.eqb s) l.

(** ** Device kind *)

Definition PHONE_PATTERNS : list jsstring :=
  Eval vm_compute in map lit ["phone"; "android"; "mobile"; "iq13"; "iqoo"]%string.

(** [isPhoneDevice]: [/phone|android|mobile|iq13|iqoo/i] on the lower-cased
    identifier.  Of the code units outside ASCII only U+0130 and U+212A
    lower-case into ASCII (to [i] followed by U+0307, and to [k]), and
    neither can complete one of the five words, so the ASCII lower-casing
    decides the test. *)
Definition isPhoneDevice (machine : option jsstring) : bool :=
  match machine with
  | None => false
  | Some raw =>
    if isEmpty raw then false
    else
      let m := toLowerCase raw in
      existsb (fun w => includes w m) PHONE_PATTERNS
  end.

(** ** App name extraction *)

(** [x.split(' - ')[0]], which is [undefined] on an empty array. *)
Definition firstSegment (s : jsstring) : option jsstring :=
  hd_error (split SEP s).

Definition getAppNameFromEvent (ev : option ActivityEvent) : jsstring :=
  match ev with
  | None => []
  | Some e =>
    let fromApp :=
      let a := trim (optOr (app e) []) in
      if isEmpty a then []
      else match firstSegment a with
           | Some first => trim first
           | None => []
           end in
    let wt := trim (optOr (window_title e) []) in
    if isEmpty wt then fromApp
    else match firstSegment wt with
         | Some first => trim first
         | None => fromApp
         end
  end.

Definition DASH : jsstring := [0x2D%N].

Definition getDisplayAppNameForPhone (ev : option ActivityEvent) : jsstring :=
  match ev with
  | None => DASH
  | Some e =>
    let raw := trim (optOr (window_title e) (optOr (app e) [])) in
    match firstSegment raw with
    | Some first => if isEmpty (trim first) then DASH else trim first
    | None => DASH
    end
  end.

(** ** Title parsers *)

Record BrowserTitle := { appName : jsstring; windowTitle : jsstring }.

(** The segments [parseBrowserStyleTitle] works on:
    [split(' - ').map(p => p.trim()).filter(Boolean)]. *)
Definition trimmedSegments (t : jsstring) : list jsstring :=
  filter (fun p => negb (isEmpty p)) (map trim (split SEP t)).

Definition parseBrowserStyleTitle (fullTitle : jsstring) : option BrowserTitle :=
  if isEmpty fullTitle then None
  else
    let parts := trimmedSegments fullTitle in
    if List.length parts <? 2 then None
    else Some {| appName := last parts [];
                 windowTitle := join SEP (removelast parts) |}.

(** The class [[\uFFFD\s\uD800-\uDFFF]] of [trimLeadingNoise]. *)
Definition isLeadingNoise (c : N) : bool :=
  ((c =? 0xFFFD) || isWhiteSpace c || (0xD800 <=? c) && (c <=? 0xDFFF))%N.

Definition trimLeadingNoise (s : jsstring) : jsstring :=
  if isEmpty s then s else trim (dropWhile isLeadingNoise s).

Definition NOTE_BEAMED : jsstring := [0xD83C; 0xDFB6]%N.   (* 🎶 *)
Definition NOTE_SINGLE : jsstring := [0xD83C; 0xDFB5]%N.   (* 🎵 *)

(** The class [[\uFFFD\uD83C\uDFB5\uD83C\uDFB6🎶🎵]] of [parseMusicWindowTitle]:
    without the [u] flag the two symbols contribute their surrogate halves,
    so the class holds the four code units below. *)
Definition isMusicHeadUnit (c : N) : bool :=
  ((c =? 0xFFFD) || (c =? 0xD83C) || (c =? 0xDFB5) || (c =? 0xDFB6))%N.

Definition musicHeadTest (raw : jsstring) : bool :=
  match raw with
  | [] => false
  | c :: _ => isMusicHeadUnit c
  end.

Module Music.
Record t := { app : jsstring; song : jsstring }.
End Music.

Definition parseMusicWindowTitle (fullTitle : jsstring) : option Music.t :=
  if isEmpty fullTitle then None
  else
    let raw := trim fullTitle in
    let isMusic := musicHeadTest raw || startsWith NOTE_BEAMED raw
                   || startsWith NOTE_SINGLE raw in
    if negb isMusic then None
    else
      let rest := trimLeadingNoise raw in
      match indexOf SEP rest with
      | None => Some {| Music.app := orElse (trimLeadingNoise rest) UNKNOWN;
                        Music.song := orElse (trimLeadingNoise rest) [] |}
      | Some idx =>
        Some {| Music.app := orElse (trimLeadingNoise (sliceTo idx rest)) UNKNOWN;
                Music.song := orElse (trimLeadingNoise
                                  (sliceFrom (idx + List.length SEP) rest)) [] |}
      end.

Definition getAppNameForStats (ev : option ActivityEvent) (isPhone : bool)
  : jsstring :=
  match ev with
  | None => UNKNOWN
  | Some e =>
    let raw := trim (optOr (window_title e) (optOr (app e) [])) in
    match parseMusicWindowTitle raw with
    | Some music => orElse (trimLeadingNoise (Music.app music)) UNKNOWN
    | None =>
      if isPhone then
        let a := trim (optOr (firstSegment raw) []) in
        orElse (trimLeadingNoise a) UNKNOWN
      else
        match parseBrowserStyleTitle raw with
        | Some browser => orElse (trim (appName browser)) UNKNOWN
        | None =>
          let first := trim (optOr (firstSegment raw) []) in
          orElse first UNKNOWN
        end
    end
  end.

(** ** Noise, screen-off and the asleep rule *)

Definition isNoiseApp (name : jsstring) : bool :=
  existsb (fun a => JS.eqb (trim (orElse name [])) a) NOISE_APPS.

Definition isScreenOffApp (name : jsstring) : bool :=
  existsb (fun a => JS.eqb (trim (orElse name [])) a) SCREEN_OFF_APPS.

(** [pcData.access_time ? new Date(pcData.access_time).getTime() : 0] *)
Definition accessTimeOrZero (e : ActivityEvent) : jsdate :=
  match access_time e with
  | Some d => d
  | None => TimeMs 0
  end.

(** [now] is [Date.now()]; a comparison with [NaN] is false. *)
Definition isPcStale (now : Z) (pcData : option ActivityEvent) (maxAgeMs : Z)
  : bool :=
  match pcData with
  | None => true
  | Some e =>
    match accessTimeOrZero e with
    | InvalidDate => false
    | TimeMs t => (maxAgeMs <? now - t)%Z
    end
  end.

Definition isAsleepCondition (now : Z) (phoneData pcData : option ActivityEvent)
  : bool :=
  match phoneData with
  | None => false
  | Some _ =>
    let name := getAppNameFromEvent phoneData in
    if negb (isScreenOffApp name) then false
    else isPcStale now pcData PC_STALE_MS
  end.

Definition eventContainsKeyword (ev : option ActivityEvent) (keyword : jsstring)
  : bool :=
  match ev with
  | None => false
  | Some e =>
    if isEmpty keyword then false
    else
      let wt := includes keyword (optOr (window_title e) []) in
      let a := includes keyword (optOr (app e) []) in
      wt || a
  end.

(** ** Rendering of the current status *)

(** [getMonth()], [getDate()], [getHours()] and [getMinutes()] of a valid
    [Date], in the time zone of the host. *)
Record LocalFields := {
  getMonth : Z;
  getDate : Z;
  getHours : Z;
  getMinutes : Z
}.

Section Rendering.

(** The host's local-time decomposition of a time value. *)
Variable localFields : Z -> LocalFields.

Definition NaN_text : jsstring := Eval vm_compute in lit "NaN".

Definition fmtTime (ev : option ActivityEvent) : jsstring :=
  match ev with
  | None => lit "--"
  | Some e =>
    match access_time e with
    | None => lit "--"
    | Some InvalidDate =>
      NaN_text ++ lit "-" ++ NaN_text ++ lit " " ++ NaN_text ++ lit ":" ++ NaN_text
    | Some (TimeMs ms) =>
      let t := localFields ms in
      padStart2 (ofZ (getMonth t + 1)) ++ lit "-" ++ padStart2 (ofZ (getDate t))
        ++ lit " " ++ padStart2 (ofZ (getHours t)) ++ lit ":"
        ++ padStart2 (ofZ (getMinutes t))
    end
  end.

Definition PHONE_HEADER : jsstring := Eval vm_compute in lit "====== 手机状态 ======".
Definition PC_HEADER : jsstring := Eval vm_compute in lit "====== 电脑状态 ======".
Definition NO_DATA : jsstring := Eval vm_compute in lit "  暂无数据".
Definition GAME_BOOSTER : jsstring := Eval vm_compute in lit "游戏助推器".
Definition GAME_UNKNOWN : jsstring :=
  Eval vm_compute in lit "在打游戏，但是采集不到在打什么神秘游戏".

(** The text between the desktop header lines, for a window title. *)
Definition pcContent (fullWindowTitle : jsstring) : jsstring :=
  match parseMusicWindowTitle fullWindowTitle with
  | Some music =>
    lit "🎵正在听：" ++ Music.song music ++ NL ++ lit "▶应用：" ++ Music.app music
  | None =>
    match parseBrowserStyleTitle fullWindowTitle with
    | Some browser =>
      lit "▶应用：" ++ appName browser ++ NL ++ lit "▶窗口标题：" ++ windowTitle browser
    | None =>
      let name := orElse (optOr (firstSegment fullWindowTitle) []) UNKNOWN in
      lit "▶应用：" ++ name ++ NL ++ lit "▶窗口标题：" ++ fullWindowTitle
    end
  end.

Definition formatPersonBlock (name : jsstring)
  (phoneData pcData : option ActivityEvent) (hidePc : bool) : jsstring :=
  let phoneBlock :=
    match phoneData with
    | None => join NL [PHONE_HEADER; NO_DATA; []]
    | Some p =>
      let a := getAppNameFromEvent phoneData in
      if isNoiseApp a then
        let text := if isScreenOffApp a then lit "熄屏" else lit "暂无数据" in
        join NL [PHONE_HEADER; lit "  " ++ text;
                 lit "来自：" ++ name ++ lit " の 手机"; []]
      else
        let rawTitle := trim (optOr (window_title p) (optOr (app p) [])) in
        let content :=
          match parseMusicWindowTitle rawTitle with
          | Some music =>
            lit "🎵正在听：" ++ Music.song music ++ NL ++ lit "▶应用："
              ++ Music.app music
          | None =>
            let a' := getDisplayAppNameForPhone phoneData in
            if JS.eqb a' GAME_BOOSTER then GAME_UNKNOWN
            else lit "▶应用：" ++ a'
          end in
        join NL [PHONE_HEADER; content;
                 lit "更新时间：" ++ fmtTime phoneData;
                 lit "来自：" ++ name ++ lit " の 手机"; []]
    end in
  if hidePc then phoneBlock
  else
    let pcBlock :=
      match pcData with
      | None => join NL [PC_HEADER; NO_DATA; lit "来自：" ++ name ++ lit " の PC"]
      | Some pc =>
        let fullWindowTitle := optOr (window_title pc) (lit "未知窗口") in
        join NL [PC_HEADER;
                 lit "💻" ++ name ++ lit "的电脑正在运行：";
                 pcContent fullWindowTitle;
                 lit "更新时间：" ++ fmtTime pcData;
                 lit "来自：" ++ name ++ lit " の PC"]
      end in
    phoneBlock ++ NL ++ pcBlock.

Definition PIMENG_MYSTERY_APPS : list jsstring :=
  Eval vm_compute in map lit ["交互池"; "系统桌面"; "系统界面组件"]%string.

Definition formatPimengMessage (phoneData pcData : option ActivityEvent)
  : jsstring :=
  let phoneBlock :=
    match phoneData with
    | None => join NL [PHONE_HEADER; NO_DATA; []]
    | Some p =>
      let appNamePimeng := getAppNameFromEvent phoneData in
      if isNoiseApp appNamePimeng then
        let text := if isScreenOffApp appNamePimeng
                    then lit "熄屏" else lit "暂无数据" in
        join NL [PHONE_HEADER; lit "  " ++ text; lit "来自：皮梦 の iQOO13"; []]
      else
        let wt := optOr (window_title p) [] in
        let '(phonePrefix, phoneContent) :=
          match parseMusicWindowTitle wt with
          | Some musicPimeng =>
            (lit "🎵皮梦正在听音乐：",
             lit "▶曲目：" ++ Music.song musicPimeng ++ NL ++ lit "▶用"
               ++ Music.app musicPimeng ++ lit "听的")
          | None =>
            let a := optOr (firstSegment wt) [] in
            (lit "♿️皮梦正在",
             if JS.eqb a (lit "三角洲行动") then lit "得吃"
             else if inList a PIMENG_MYSTERY_APPS
               then lit "神秘应用（采集不准确）「" ++ a ++ lit "」"
             else if JS.eqb a (lit "游戏魔盒") then GAME_UNKNOWN
             else if JS.eqb a (lit "PiliPlus") then lit "哔哩哔哩（第三方客户端）"
             else lit "▶应用：" ++ orElse a (lit "未知应用"))
          end in
        join NL [PHONE_HEADER; phonePrefix; phoneContent;
                 lit "更新时间：" ++ fmtTime phoneData;
                 lit "来自：皮梦 の iQOO13"; []]
    end in
  let pcBlock :=
    match pcData with
    | None => join NL [PC_HEADER; NO_DATA; lit "来自：皮梦 の PC"]
    | Some pc =>
      let fullWindowTitle := optOr (window_title pc) (lit "未知窗口") in
      join NL [PC_HEADER;
               lit "💻皮梦的电脑正在运行：";
               pcContent fullWindowTitle;
               lit "更新时间：" ++ fmtTime pcData;
               lit "来自：皮梦 の PC"]
    end in
  phoneBlock ++ NL ++ pcBlock.

Definition machineIs (m : jsstring) (e : ActivityEvent) : bool :=
  match machine e with
  | Some x => JS.eqb x m
  | None => false
  end.

Definition asleepLine (name : jsstring) : jsstring :=
  lit "【" ++ name ++ lit "】" ++ NL ++ lit "  " ++ name ++ lit "好像睡着了呢" ++ NL.

Definition noRecordLine (name : jsstring) : jsstring :=
  lit "【" ++ name ++ lit "】" ++ NL ++ lit "  暂无记录" ++ NL.

(** [now] is the value [Date.now()] has inside [isPcStale]. *)
Definition formatMessageByPerson (now : Z) (name : jsstring)
  (events : list ActivityEvent) : jsstring :=
  match events with
  | [] => noRecordLine name
  | _ :: _ =>
    if JS.eqb name PIMENG then
      let phoneData := find (machineIs PIMENG_PHONE_MACHINE) events in
      let pcData := find (machineIs PIMENG_PC_MACHINE) events in
      if isAsleepCondition now phoneData pcData then asleepLine name
      else formatPimengMessage phoneData pcData
    else
      let phoneData := find (fun e => isPhoneDevice (machine e)) events in
      let pcData :=
        if inList name HIDE_PC_NAMES then None
        else find (fun e => negb (isPhoneDevice (machine e))) events in
      if isAsleepCondition now phoneData pcData then asleepLine name
      else
        let msg := lit "【" ++ name ++ lit "】" ++ NL
                   ++ formatPersonBlock name phoneData pcData
                        (inList name HIDE_PC_NAMES) in
        if JS.eqb name RAINCORE
           && match phoneData with Some _ => true | None => false end
           && eventContainsKeyword phoneData RAINCORE_ZHIBA_KEYWORD
        then msg ++ ZHIBA_LINE
        else msg
  end.

End Rendering.

(** ** Daily statistics *)

(** Numbers that are integers in the plugin (counts, seconds, milliseconds)
    are [Z]; the quotients behind the percentages are exact rationals, where
    JavaScript rounds to a double.  The heartbeat interval is taken from an
    integer configuration value. *)

Definition heartbeatSeconds (configured : option Z) : Z :=
  match configured with
  | Some h => if (0 <? h)%Z then h else HEARTBEAT_INTERVAL_SECONDS
  | None => HEARTBEAT_INTERVAL_SECONDS
  end.

Definition formatDuration (seconds : Z) : jsstring :=
  let h := (seconds / 3600)%Z in
  let m := ((seconds mod 3600) / 60)%Z in
  if (0 <? h)%Z && (0 <? m)%Z then ofZ h ++ lit "小时" ++ ofZ m ++ lit "分钟"
  else if (0 <? h)%Z then ofZ h ++ lit "小时"
  else if (0 <? m)%Z then ofZ m ++ lit "分钟"
  else lit "不足1分钟".

(** [x.toFixed(1)]: the nearest number of tenths, the larger one on a tie. *)
Definition tenths (x : Q) : Z := Qfloor (x * 10 + (1 # 2))%Q.

Definition toFixed1 (x : Q) : jsstring :=
  let body (y : Q) :=
    let n := tenths y in ofZ (n / 10) ++ lit "." ++ ofZ (n mod 10) in
  if Qle_bool 0 x then body x else lit "-" ++ body (- x)%Q.

Definition BEIJING_OFFSET_MS : Z := 8 * 60 * 60 * 1000.
Definition DAY_MS : Z := 24 * 60 * 60 * 1000.

(** [Date.UTC(y, m, d, 0, 0, 0, 0) - BEIJING_OFFSET_MS] for the UTC date
    [y-m-d] of [nowMs + BEIJING_OFFSET_MS]. *)
Definition startMs (nowMs : Z) : Z :=
  ((nowMs + BEIJING_OFFSET_MS) / DAY_MS * DAY_MS - BEIJING_OFFSET_MS)%Z.

Definition endMs (nowMs : Z) : Z := (startMs nowMs + DAY_MS)%Z.

Definition elapsedSeconds (nowMs : Z) : Z :=
  Z.max 1 ((nowMs - startMs nowMs) / 1000).

Definition isToday (nowMs : Z) (ev : ActivityEvent) : bool :=
  match access_time ev with
  | None => false
  | Some InvalidDate => false
  | Some (TimeMs t) => ((startMs nowMs <=? t) && (t <? endMs nowMs))%Z
  end.

(** [byApp[appName] = (byApp[appName] || 0) + 1] on an object without
    prototype; the pairs are kept in insertion order. *)
Fixpoint bump (k : jsstring) (byApp : list (jsstring * Z))
  : list (jsstring * Z) :=
  match byApp with
  | [] => [(k, 1%Z)]
  | (k', n) :: rest =>
    if JS.eqb k k' then (k', (n + 1)%Z) :: rest else (k', n) :: bump k rest
  end.

Definition tally (deviceEvents : list ActivityEvent) (isPhone : bool)
  : list (jsstring * Z) :=
  fold_left (fun byApp ev => bump (getAppNameForStats (Some ev) isPhone) byApp)
            deviceEvents [].

(** A key is an array index when it is the decimal text of an integer up to
    [2^32 - 2]; [Object.entries] lists those first, in numeric order, and
    then the other keys in insertion order. *)
Definition isDigit (c : N) : bool := ((0x30 <=? c) && (c <=? 0x39))%N.

Definition arrayIndex (k : jsstring) : option N :=
  if isEmpty k || negb (forallb isDigit k) then None
  else
    let n := fold_left (fun acc c => (acc * 10 + (c - 0x30))%N) k 0%N in
    if JS.eqb (ofN n) k && (n <=? 4294967294)%N then Some n else None.

Fixpoint insertIndexed (x : N * (jsstring * Z)) (l : list (N * (jsstring * Z)))
  : list (N * (jsstring * Z)) :=
  match l with
  | [] => [x]
  | y :: r => if (fst x <=? fst y)%N then x :: l else y :: insertIndexed x r
  end.

Fixpoint indexedEntries (byApp : list (jsstring * Z))
  : list (N * (jsstring * Z)) :=
  match byApp with
  | [] => []
  | kv :: r =>
    match arrayIndex (fst kv) with
    | Some i => insertIndexed (i, kv) (indexedEntries r)
    | None => indexedEntries r
    end
  end.

Definition Object_entries (byApp : list (jsstring * Z)) : list (jsstring * Z) :=
  map snd (indexedEntries byApp)
  ++ filter (fun kv => match arrayIndex (fst kv) with
                       | Some _ => false
                       | None => true
                       end) byApp.

Module Item.
Record t := { app : jsstring; count : Z; seconds : Z }.
End Item.

(** [sort((a, b) => b.seconds - a.seconds)], which is stable. *)
Fixpoint insertItem (x : Item.t) (l : list Item.t) : list Item.t :=
  match l with
  | [] => [x]
  | y :: r =>
    if (Item.seconds y <=? Item.seconds x)%Z then x :: l
    else y :: insertItem x r
  end.

Definition sortItems (l : list Item.t) : list Item.t :=
  fold_right insertItem [] l.

Definition sortedItems (heartbeatSec : Z) (deviceEvents : list ActivityEvent)
  (isPhone : bool) : list Item.t :=
  sortItems
    (map (fun kv => {| Item.app := fst kv; Item.count := snd kv;
                       Item.seconds := (snd kv * heartbeatSec)%Z |})
         (Object_entries (tally deviceEvents isPhone))).

(** The share of a bucket in the covered seconds of its device. *)
Definition itemPercent (coveredSeconds : Z) (item : Item.t) : Q :=
  (inject_Z (Item.seconds item) / inject_Z coveredSeconds * 100)%Q.

Definition pctText (coveredSeconds : Z) (item : Item.t) : jsstring :=
  if (0 <? coveredSeconds)%Z then toFixed1 (itemPercent coveredSeconds item)
  else lit "0".

Fixpoint itemLines (coveredSeconds : Z) (i : nat) (items : list Item.t)
  : list jsstring :=
  match items with
  | [] => []
  | item :: r =>
    (ofN (N.of_nat (i + 1)) ++ lit "." ++ Item.app item ++ lit " 用了"
       ++ formatDuration (Item.seconds item) ++ lit " 占比"
       ++ pctText coveredSeconds item ++ lit "%")
      :: itemLines coveredSeconds (S i) r
  end.

Record DeviceBlock := {
  lines : list jsstring;
  coveredSeconds : Z;
  percentOfDay : option Q;
  percentToNow : option Q
}.

Definition PHONE_LABEL : jsstring := Eval vm_compute in lit "手机".
Definition PC_LABEL : jsstring := Eval vm_compute in lit "电脑".

Definition buildDeviceBlock (heartbeatSec elapsed : Z)
  (deviceEvents : list ActivityEvent) (deviceLabel : jsstring) : DeviceBlock :=
  match deviceEvents with
  | [] => {| lines := []; coveredSeconds := 0; percentOfDay := Some 0%Q;
             percentToNow := None |}
  | _ :: _ =>
    let totalHeartbeats := Z.of_nat (List.length deviceEvents) in
    let covered := (totalHeartbeats * heartbeatSec)%Z in
    let sorted := sortedItems heartbeatSec deviceEvents
                              (JS.eqb deviceLabel PHONE_LABEL) in
    {| lines := (lit "▶" ++ deviceLabel) :: itemLines covered 0 sorted;
       coveredSeconds := covered;
       percentOfDay := None;
       percentToNow :=
         Some (Qmin 100 (inject_Z covered / inject_Z elapsed * 100))%Q |}
  end.

Definition phoneEventsOf (todayEvents : list ActivityEvent) : list ActivityEvent :=
  filter (fun e => isPhoneDevice (machine e)) todayEvents.

Definition pcEventsOf (name : jsstring) (todayEvents : list ActivityEvent)
  : list ActivityEvent :=
  if inList name HIDE_PC_NAMES then []
  else filter (fun e => negb (isPhoneDevice (machine e))) todayEvents.

Definition totalPercent (heartbeatSec elapsed : Z) (name : jsstring)
  (todayEvents : list ActivityEvent) : Q :=
  let phoneBlock := buildDeviceBlock heartbeatSec elapsed
                      (phoneEventsOf todayEvents) PHONE_LABEL in
  let pcBlock := buildDeviceBlock heartbeatSec elapsed
                      (pcEventsOf name todayEvents) PC_LABEL in
  let totalCovered := (coveredSeconds phoneBlock + coveredSeconds pcBlock)%Z in
  Qmin 100 (inject_Z totalCovered / inject_Z elapsed * 100)%Q.

Definition headLine (heartbeatSec elapsed : Z) (name : jsstring)
  (todayEvents : list ActivityEvent) : jsstring :=
  name ++ lit "今天截止目前有"
    ++ toFixed1 (totalPercent heartbeatSec elapsed name todayEvents)
    ++ lit "%的时间都被我视奸到了呢 这是他的设备今天的使用情况".

(** The array that [queryToday] joins into its reply. *)
Definition todayLines (heartbeatSec elapsed : Z) (name : jsstring)
  (todayEvents : list ActivityEvent) : list jsstring :=
  let phoneBlock := buildDeviceBlock heartbeatSec elapsed
                      (phoneEventsOf todayEvents) PHONE_LABEL in
  let pcBlock := buildDeviceBlock heartbeatSec elapsed
                      (pcEventsOf name todayEvents) PC_LABEL in
  headLine heartbeatSec elapsed name todayEvents
    :: lines phoneBlock ++ lines pcBlock.

(** The reply of [queryToday] once the events were fetched: [list] is the
    fetched array, [nowMs] the value of [Date.now()]. *)
Definition todayReply (configured : option Z) (nowMs : Z) (name : jsstring)
  (list : list ActivityEvent) : jsstring :=
  let heartbeatSec := heartbeatSeconds configured in
  let todayEvents := filter (isToday nowMs) list in
  match todayEvents with
  | [] => name ++ lit "今天还没有上传过数据呢，视奸不到哦"
  | _ :: _ =>
    join NL (todayLines heartbeatSec (elapsedSeconds nowMs) name todayEvents)
  end.

(** ** The classification of a desktop window title *)

(** The three-way decision that [formatPersonBlock] and
    [formatPimengMessage] take on a desktop window title (the branches of
    [pcContent]), as a value. *)
Inductive ClassifiedTitle :=
| IsMusic (app song : jsstring)
| IsBrowser (app pageTitle : jsstring)
| IsPlain (app : jsstring).

Definition classifyTitle (t : jsstring) : ClassifiedTitle :=
  match parseMusicWindowTitle t with
  | Some music => IsMusic (Music.app music) (Music.song music)
  | None =>
    match parseBrowserStyleTitle t with
    | Some browser => IsBrowser (appName browser) (windowTitle browser)
    | None => IsPlain (orElse (optOr (firstSegment t) []) UNKNOWN)
    end
  end.


(** ** The music rule as the specification words it *)

Definition isHighSurrogate (c : N) : bool := ((0xD800 <=? c) && (c <=? 0xDBFF))%N.
Definition isLowSurrogate (c : N) : bool := ((0xDC00 <=? c) && (c <=? 0xDFFF))%N.

(** Discards the leading replacement characters, white space and unpaired
    surrogates; a high surrogate followed by a low one is a pair and stays. *)
Fixpoint spec_discardLeading (s : jsstring) : jsstring :=
  match s with
  | [] => []
  | c :: r =>
    if ((c =? 0xFFFD)%N || isWhiteSpace c) then spec_discardLeading r
    else if isHighSurrogate c then
      match r with
      | d :: _ => if isLowSurrogate d then s else spec_discardLeading r
      | [] => []
      end
    else if isLowSurrogate c then spec_discardLeading r
    else s
  end.

Definition spec_isMusic (t : jsstring) : bool :=
  startsWith NOTE_BEAMED (spec_discardLeading t)
  || startsWith NOTE_SINGLE (spec_discardLeading t).

(** [a] and [b] are the parts of [s] before and after the first occurrence
    of [sep]. *)
Definition firstSplit (sep s a b : jsstring) : Prop :=
  s = a ++ sep ++ b
  /\ forall j, j < List.length a -> startsWith sep (skipn j s) = false.

(** The sum of the counts of a tally. *)
Definition totalCount (byApp : list (jsstring * Z)) : Z :=
  fold_right (fun kv acc => (snd kv + acc)%Z) 0%Z byApp.

(** A field of an event holds a string with [k] somewhere inside. *)
Definition fieldContains (field : option jsstring) (k : jsstring) : Prop :=
  exists w l r, field = Some w /\ w = l ++ k ++ r.

(** [s.endsWith(suffix)], as a proposition. *)
Definition endsWith (suffix s : jsstring) : Prop :=
  exists pre, s = pre ++ suffix.

(** The head of [s], if any, does not satisfy [p]. *)
Definition cleanHead (p : N -> bool) (s : jsstring) : Prop :=
  match s with
  | [] => True
  | c :: _ => p c = false
  end.


(** ** Notions used in the further properties *)

(** A number below 100 written with two decimal digits. *)
Definition twoDigits (n : Z) : jsstring :=
  [(0x30 + Z.to_N (n / 10))%N; (0x30 + Z.to_N (n mod 10))%N].

(** The number of events of a device that are counted under the key [k]. *)
Definition eventsWithKey (k : jsstring) (deviceEvents : list ActivityEvent)
  (isPhone : bool) : Z :=
  Z.of_nat (List.length
    (filter (fun ev => JS.eqb (getAppNameForStats (Some ev) isPhone) k)
            deviceEvents)).

(** The count a tally holds for the key [k]. *)
Fixpoint assocCount (k : jsstring) (byApp : list (jsstring * Z)) : Z :=
  match byApp with
  | [] => 0%Z
  | (k', n) :: rest =>
    ((if JS.eqb k k' then n else 0) + assocCount k rest)%Z
  end.

Definition sumSeconds (items : list Item.t) : Z :=
  fold_right (fun item acc => (Item.seconds item + acc)%Z) 0%Z items.

Definition itemOf (heartbeatSec : Z) (kv : jsstring * Z) : Item.t :=
  {| Item.app := fst kv; Item.count := snd kv;
     Item.seconds := (snd kv * heartbeatSec)%Z |}.

(** ** Configuration *)

Module Person.
Record t := {
  name : option jsstring;
  trigger : option jsstring;
  apiBase : option jsstring
}.
End Person.

(** The merged [spy-status] configuration.  [persons] and [teamNames] are
    [None] when the value is not an array; an entry of [persons] that is
    [null] is [None]. *)
Record SpyConfig := {
  persons : option (list (option Person.t));
  teamTrigger : option jsstring;
  teamNames : option (list jsstring);
  teamForwardTitle : option jsstring;
  heartbeatIntervalSeconds : option Z
}.

Definition ALL_TRIGGER : jsstring := Eval vm_compute in lit "时间所有人".
Definition DEFAULT_TEAM_TRIGGER : jsstring := Eval vm_compute in lit "时间开发团队".

(** [Array.isArray(x) ? x : []] *)
Definition arrayOr {A : Type} (x : option (list A)) : list A :=
  match x with
  | Some l => l
  | None => []
  end.

(** [x && x.trigger === trigger] *)
Definition hasTrigger (trigger : jsstring) (x : option Person.t) : bool :=
  match x with
  | Some p =>
    match Person.trigger p with
    | Some t => JS.eqb t trigger
    | None => false
    end
  | None => false
  end.

(** [x && x.name === name] *)
Definition hasName (name : jsstring) (x : option Person.t) : bool :=
  match x with
  | Some p =>
    match Person.name p with
    | Some n => JS.eqb n name
    | None => false
    end
  | None => false
  end.

(** [None] stands for [null]. *)
Definition getNamesByTrigger (c : SpyConfig) (trigger : jsstring)
  : option (list jsstring) :=
  if JS.eqb trigger ALL_TRIGGER then None
  else if JS.eqb trigger (optOr (teamTrigger c) DEFAULT_TEAM_TRIGGER) then
    let names := arrayOr (teamNames c) in
    if 0 <? List.length names then Some names else None
  else
    match find (hasTrigger trigger) (arrayOr (persons c)) with
    | Some (Some p) =>
      match Person.name p with
      | Some n => if isEmpty n then None else Some [n]
      | None => None
      end
    | _ => None
    end.

Definition SLASH : N := 0x2F%N.

(** [s.replace(/\/$/, '')] *)
Definition stripTrailingSlash (s : jsstring) : jsstring :=
  match rev s with
  | c :: r => if (c =? SLASH)%N then rev r else s
  | [] => s
  end.

(** [API_BASE] is [CONFIG.API_BASE], which comes from the environment. *)
Definition getApiBaseForName (API_BASE : jsstring) (c : SpyConfig)
  (name : jsstring) : jsstring :=
  match find (hasName name) (arrayOr (persons c)) with
  | Some (Some p) =>
    match Person.apiBase p with
    | Some b => if isEmpty b then API_BASE else stripTrailingSlash b
    | None => API_BASE
    end
  | _ => API_BASE
  end.

(** ** Request addresses *)

(** The scalar values of a string: a surrogate pair is one code point, a
    lone surrogate becomes U+FFFD. *)
Fixpoint scalarValues (s : jsstring) : list N :=
  match s with
  | [] => []
  | c :: r =>
    if isHighSurrogate c then
      match r with
      | d :: r' =>
        if isLowSurrogate d
        then (0x10000 + (c - 0xD800) * 0x400 + (d - 0xDC00))%N :: scalarValues r'
        else 0xFFFD%N :: scalarValues r
      | [] => [0xFFFD%N]
      end
    else if isLowSurrogate c then 0xFFFD%N :: scalarValues r
    else c :: scalarValues r
  end.

Definition utf8 (cp : N) : list N :=
  if (cp <? 0x80)%N then [cp]
  else if (cp <? 0x800)%N then
    [0xC0 + cp / 64; 0x80 + cp mod 64]%N
  else if (cp <? 0x10000)%N then
    [0xE0 + cp / 4096; 0x80 + (cp / 64) mod 64; 0x80 + cp mod 64]%N
  else
    [0xF0 + cp / 262144; 0x80 + (cp / 4096) mod 64;
     0x80 + (cp / 64) mod 64; 0x80 + cp mod 64]%N.

Definition hexDigit (n : N) : N :=
  if (n <? 10)%N then (0x30 + n)%N else (0x41 + (n - 10))%N.

(** ASCII letters and digits and [*], [-], [.], [_]: the bytes that the
    form-urlencoded serializer writes as they are. *)
Definition isFormSafe (b : N) : bool :=
  ((0x30 <=? b) && (b <=? 0x39) || (0x41 <=? b) && (b <=? 0x5A)
   || (0x61 <=? b) && (b <=? 0x7A)
   || (b =? 0x2A) || (b =? 0x2D) || (b =? 0x2E) || (b =? 0x5F))%N.

Definition formByte (b : N) : jsstring :=
  if (b =? 0x20)%N then [0x2B%N]
  else if isFormSafe b then [b]
  else [0x25%N; hexDigit (b / 16); hexDigit (b mod 16)].

(** How [URLSearchParams] writes a name or a value. *)
Definition formEncode (s : jsstring) : jsstring :=
  flat_map formByte (flat_map utf8 (scalarValues s)).

(** [new URLSearchParams(params).toString()] *)
Definition searchParams (params : list (jsstring * jsstring)) : jsstring :=
  join [0x26%N]
       (map (fun kv => formEncode (fst kv) ++ [0x3D%N] ++ formEncode (snd kv))
            params).

Definition getApiUrl (API_BASE path : jsstring)
  (params : list (jsstring * jsstring)) (base : option jsstring) : jsstring :=
  let b := stripTrailingSlash (match base with Some x => x | None => API_BASE end) in
  let q := searchParams params in
  if isEmpty q then b ++ path else b ++ path ++ [0x3F%N] ++ q.

Definition PER_PERSON_LIMIT : N := 5.

(** The address [fetchStatusByName] asks. *)
Definition statusUrl (API_BASE name : jsstring) (limit : N)
  (apiBase : option jsstring) : jsstring :=
  getApiUrl API_BASE (lit "/api/current-status")
            [(lit "name", name); (lit "limit", ofN limit)]
            (Some (match apiBase with Some x => x | None => API_BASE end)).

(** The address [fetchTodayEvents] asks. *)
Definition todayUrl (API_BASE name : jsstring) (apiBase : option jsstring)
  : jsstring :=
  getApiUrl API_BASE (lit "/api/today-events") [(lit "name", name)]
            (Some (match apiBase with Some x => x | None => API_BASE end)).

(** ** The key of the reply cache *)

(** The order of [Array.prototype.sort] without a comparator on strings:
    code unit by code unit, a proper prefix first. *)
Fixpoint leString (a b : jsstring) : bool :=
  match a, b with
  | [], _ => true
  | _ :: _, [] => false
  | x :: a', y :: b' =>
    if (x <? y)%N then true
    else if (y <? x)%N then false
    else leString a' b'
  end.

Fixpoint insertName (x : jsstring) (l : list jsstring) : list jsstring :=
  match l with
  | [] => [x]
  | y :: r => if leString x y then x :: l else y :: insertName x r
  end.

Definition sortNames (names : list jsstring) : list jsstring :=
  fold_right insertName [] names.

Definition COMMA : N := 0x2C%N.

(** [names.slice().sort().join(',')] *)
Definition cacheKey (names : list jsstring) : jsstring :=
  join [COMMA] (sortNames names).

(** The code units that may occur in an encoded name or value. *)
Definition isUrlUnit (c : N) : bool :=
  (isFormSafe c || (c =? 0x2B) || (c =? 0x25))%N.

(** Every code unit of the string fits in 16 bits. *)
Definition wellFormed (s : jsstring) : Prop :=
  Forall (fun c => (c < 0x10000)%N) s.

(** ** The query for the current status *)

(** What [fetchStatusByName] gives: the events, or the message of the error
    it throws. *)
Inductive FetchResult :=
| Fetched (events : list ActivityEvent)
| Failed (message : jsstring).

(** What the query hands to the chat: a forwarded bundle made by
    [common.makeForwardMsg] from blocks and a title, or a text, quoting the
    request or not. *)
Inductive Reply :=
| Forward (blocks : list jsstring) (title : jsstring)
| Text (msg : jsstring) (quote : bool).

Inductive Cached :=
| CachedBlocks (blocks : list jsstring)
| CachedText (msg : jsstring).

(** The module-level [cache]: the own properties of [byNames] and the one
    [timestamp]. *)
Record Cache := {
  byNames : list (jsstring * Cached);
  timestamp : Z
}.

(** What lies outside the plugin during one query: the answer of
    [/api/names] ([None] when [fetchNames] throws), the answer to the
    [i]-th status request by its address, and the value of [Date.now()]
    while the [i]-th block is formatted. *)
Record World := {
  serverNames : option (list jsstring);
  fetchStatus : nat -> jsstring -> FetchResult;
  formatClock : nat -> Z
}.

Definition CACHE_EXPIRE_TIME : Z := 8000.

(** The properties that [byNames], a plain object, inherits from
    [Object.prototype]. *)
Definition OBJECT_PROTOTYPE_KEYS : list jsstring :=
  Eval vm_compute in
  map lit ["constructor"; "__defineGetter__"; "__defineSetter__";
           "hasOwnProperty"; "__lookupGetter__"; "__lookupSetter__";
           "isPrototypeOf"; "propertyIsEnumerable"; "toString"; "valueOf";
           "__proto__"; "toLocaleString"]%string.

Fixpoint lookupCached (key : jsstring) (entries : list (jsstring * Cached))
  : option Cached :=
  match entries with
  | [] => None
  | (k, v) :: rest => if JS.eqb key k then Some v else lookupCached key rest
  end.

Fixpoint storeCached (key : jsstring) (v : Cached)
  (entries : list (jsstring * Cached)) : list (jsstring * Cached) :=
  match entries with
  | [] => [(key, v)]
  | (k, w) :: rest =>
    if JS.eqb key k then (k, v) :: rest else (k, w) :: storeCached key v rest
  end.

(** [cache.byNames[key] = v; cache.timestamp = now] *)
Definition storeCache (key : jsstring) (v : Cached) (now : Z) (cache : Cache)
  : Cache :=
  {| byNames := storeCached key v (byNames cache); timestamp := now |}.

(** Truthiness of a cached value: an array always, a text unless empty. *)
Definition truthyCached (v : Cached) : bool :=
  match v with
  | CachedBlocks _ => true
  | CachedText msg => negb (isEmpty msg)
  end.

Definition forwardTitle (c : SpyConfig) (trigger : jsstring) : jsstring :=
  if JS.eqb trigger ALL_TRIGGER then lit "所有人状态"
  else optOr (teamForwardTitle c) (lit "开发团队状态").

Definition replyOfCached (c : SpyConfig) (trigger : jsstring) (v : Cached)
  : Reply :=
  match v with
  | CachedBlocks blocks => Forward blocks (forwardTitle c trigger)
  | CachedText msg => Text msg true
  end.

(** The result of one query, as far as it is modelled. *)
Inductive Outcome :=
| Replied (reply : option Reply) (cache : Cache)
| NotModelled.

Section Query.

Variable localFields : Z -> LocalFields.
Variable API_BASE : jsstring.

(** The names a trigger stands for, or the reply that ends the query when
    there are none ([None]: no reply at all). *)
Definition resolveNames (c : SpyConfig) (trigger : jsstring) (world : World)
  : option Reply + list jsstring :=
  if JS.eqb trigger ALL_TRIGGER then
    match serverNames world with
    | None =>
      inl (Some (Text (lit "获取所有人名单失败，请确认服务端已启动且 " ++ API_BASE
                       ++ lit " 可访问。") false))
    | Some [] =>
      inl (Some (Text (lit "服务端当前没有任何已配置的用户（group-map 为空）。")
                      false))
    | Some names => inr names
    end
  else
    match getNamesByTrigger c trigger with
    | None => inl None
    | Some [] => inl None
    | Some names => inr names
    end.

(** The block of one person: the body of the loop over the names, [i]
    being the number of names handled before. *)
Definition personBlock (c : SpyConfig) (world : World) (i : nat)
  (name : jsstring) : jsstring :=
  let apiBase := getApiBaseForName API_BASE c name in
  match fetchStatus world i
          (statusUrl API_BASE name PER_PERSON_LIMIT (Some apiBase)) with
  | Fetched events =>
    formatMessageByPerson localFields (formatClock world i) name events
  | Failed message =>
    lit "【" ++ name ++ lit "】" ++ NL ++ lit "  查询失败：" ++ message ++ NL
  end.

Fixpoint personBlocks (c : SpyConfig) (world : World) (i : nat)
  (names : list jsstring) : list jsstring :=
  match names with
  | [] => []
  | name :: rest => personBlock c world i name :: personBlocks c world (S i) rest
  end.

(** The entry of the cache that answers a query at [now], if any:
    [cached && (now - cache.timestamp) < CONFIG.CACHE_EXPIRE_TIME]. *)
Definition cacheHit (now : Z) (key : jsstring) (cache : Cache) : option Cached :=
  match lookupCached key (byNames cache) with
  | Some v =>
    if truthyCached v && (now - timestamp cache <? CACHE_EXPIRE_TIME)%Z
    then Some v else None
  | None => None
  end.

(** The reply that is made from the servers' answers, and what is put in
    the cache for it. *)
Definition freshAnswer (c : SpyConfig) (trigger : jsstring) (world : World)
  (names : list jsstring) : Reply * Cached :=
  let blocks := personBlocks c world 0 names in
  let isDevTeam :=
    JS.eqb trigger (optOr (teamTrigger c) DEFAULT_TEAM_TRIGGER) in
  let isTeamQuery := isDevTeam || JS.eqb trigger ALL_TRIGGER in
  let isForward := isTeamQuery && (0 <? List.length blocks) in
  if isForward then
    let forwardBlocks :=
      if isDevTeam then lit "这是当前knd dev team成员状态" :: blocks
      else blocks in
    (Forward forwardBlocks (forwardTitle c trigger), CachedBlocks forwardBlocks)
  else
    let msg := orElse (trim (join [] blocks)) (lit "暂无数据") in
    (Text msg true, CachedText msg).

(** [query] from the matched trigger on; [now] is the value of [Date.now()]
    after the names were resolved.  A cache key that names a property of
    [Object.prototype] reads and writes that property and is left out. *)
Definition queryTrigger (c : SpyConfig) (trigger : jsstring) (now : Z)
  (cache : Cache) (world : World) : Outcome :=
  match resolveNames c trigger world with
  | inl reply => Replied reply cache
  | inr names =>
    let key := cacheKey names in
    if inList key OBJECT_PROTOTYPE_KEYS then NotModelled
    else
      match cacheHit now key cache with
      | Some v => Replied (Some (replyOfCached c trigger v)) cache
      | None =>
        let (reply, v) := freshAnswer c trigger world names in
        Replied (Some reply) (storeCache key v now cache)
      end
  end.

End Query.

(** * Properties *)

(** ** The string operations on examples *)

Example lit_note : lit "🎵 a" = [0xD83C; 0xDFB5; 0x20; 0x61]%N.
Proof. reflexivity. Qed.

Example split_example :
  split (lit " - ") (lit "a - b - - c") = [lit "a"; lit "b"; lit "- c"].
Proof. reflexivity. Qed.

Example ofN_example : ofN 1203 = lit "1203" /\ ofN 0 = lit "0".
Proof. split; reflexivity. Qed.

(** ** Facts about the string operations *)

Lemma eqb_eq (a b : jsstring) : JS.eqb a b = true <-> a = b.
Proof.
  unfold JS.eqb. destruct (list_eq_dec N.eq_dec a b); split; congruence.
Qed.

Lemma eqb_refl (a : jsstring) : JS.eqb a a = true.
Proof. now apply eqb_eq. Qed.

Lemma inList_In (s : jsstring) (l : list jsstring) : inList s l = true <-> In s l.
Proof.
  unfold inList. rewrite existsb_exists. split.
  - intros [x [Hx He]]. apply eqb_eq in He. now subst.
  - intros H. exists s. split; [assumption | apply eqb_refl].
Qed.

Lemma isEmpty_true (s : jsstring) : isEmpty s = true <-> s = [].
Proof. destruct s; simpl; split; congruence. Qed.

Lemma isEmpty_false (s : jsstring) : isEmpty s = false <-> s <> [].
Proof. destruct s; simpl; split; congruence. Qed.

Lemma orElse_nil (s : jsstring) : orElse s [] = s.
Proof. destruct s; reflexivity. Qed.

Lemma startsWith_app (p r : jsstring) : startsWith p (p ++ r) = true.
Proof.
  induction p as [|a p IH]; simpl; [reflexivity|].
  now rewrite N.eqb_refl, IH.
Qed.

Lemma startsWith_spec (p s : jsstring) :
  startsWith p s = true <-> exists r, s = p ++ r.
Proof.
  split.
  - revert s. induction p as [|a p IH]; intros s H.
    + now exists s.
    + destruct s as [|b s]; simpl in H; [discriminate|].
      apply andb_true_iff in H. destruct H as [Hab Hs].
      apply N.eqb_eq in Hab. subst b.
      destruct (IH _ Hs) as [r ->]. now exists r.
  - intros [r ->]. apply startsWith_app.
Qed.

(** [indexOf] finds an occurrence, and the first one. *)
Lemma indexOf_Some (p s : jsstring) (i : nat) :
  indexOf p s = Some i ->
  s = firstn i s ++ p ++ skipn (i + List.length p) s
  /\ forall j, j < i -> startsWith p (skipn j s) = false.
Proof.
  revert i. induction s as [|c s IH]; intros i H.
  - simpl in H. destruct (startsWith p []) eqn:E; [|discriminate].
    injection H as <-. split; [|intros j Hj; lia].
    apply startsWith_spec in E. destruct E as [r Hr].
    symmetry in Hr. apply app_eq_nil in Hr. destruct Hr as [-> ->]. reflexivity.
  - simpl in H. destruct (startsWith p (c :: s)) eqn:E.
    + injection H as <-. split; [|intros j Hj; lia].
      apply startsWith_spec in E. destruct E as [r Hr].
      change (c :: s = p ++ skipn (List.length p) (c :: s)).
      rewrite Hr. now rewrite skipn_app, skipn_all, Nat.sub_diag.
    + destruct (indexOf p s) as [k|] eqn:Ek; [|discriminate].
      simpl in H. injection H as <-.
      destruct (IH k eq_refl) as [Hs Hfirst]. split.
      * simpl. f_equal. exact Hs.
      * intros [|j] Hj; simpl; [exact E|]. apply Hfirst. lia.
Qed.

Lemma indexOf_None (p s : jsstring) :
  indexOf p s = None -> forall l r, s <> l ++ p ++ r.
Proof.
  induction s as [|c s IH]; intros H l r Heq.
  - simpl in H. destruct (startsWith p []) eqn:E; [discriminate|].
    symmetry in Heq. apply app_eq_nil in Heq. destruct Heq as [_ Heq].
    apply app_eq_nil in Heq. destruct Heq as [-> _]. discriminate.
  - simpl in H. destruct (startsWith p (c :: s)) eqn:E; [discriminate|].
    destruct (indexOf p s) eqn:Ek; [discriminate|].
    destruct l as [|a l].
    + simpl in Heq. rewrite Heq, startsWith_app in E. discriminate.
    + simpl in Heq. injection Heq as _ Heq. exact (IH eq_refl l r Heq).
Qed.

Lemma includes_spec (p s : jsstring) :
  includes p s = true <-> exists l r, s = l ++ p ++ r.
Proof.
  unfold includes. destruct (indexOf p s) as [i|] eqn:E; split; intros H.
  - apply indexOf_Some in E. destruct E as [E _]. eauto.
  - reflexivity.
  - discriminate.
  - destruct H as [l [r H]]. exfalso. exact (indexOf_None _ _ E l r H).
Qed.

(** A string is its stripped prefix followed by what [dropWhile] keeps. *)
Lemma dropWhile_split (p : N -> bool) (s : jsstring) :
  exists w, s = w ++ dropWhile p s /\ forallb p w = true.
Proof.
  induction s as [|c s [w [Hs Hw]]]; simpl.
  - now exists [].
  - destruct (p c) eqn:E.
    + exists (c :: w). simpl. rewrite E, Hw. split; [now f_equal | reflexivity].
    + now exists [].
Qed.

Lemma dropWhile_cleanHead (p : N -> bool) (s : jsstring) :
  cleanHead p (dropWhile p s).
Proof.
  induction s as [|c s IH]; simpl; [exact I|].
  destruct (p c) eqn:E; [exact IH | exact E].
Qed.

Lemma dropWhile_id (p : N -> bool) (s : jsstring) :
  cleanHead p s -> dropWhile p s = s.
Proof. destruct s as [|c s]; simpl; intros H; [reflexivity | now rewrite H]. Qed.

Lemma trimEnd_split (s : jsstring) :
  exists w, s = trimEnd s ++ w /\ forallb isWhiteSpace w = true.
Proof.
  unfold trimEnd, trimStart.
  destruct (dropWhile_split isWhiteSpace (rev s)) as [w [Hs Hw]].
  exists (rev w). split.
  - rewrite <- rev_app_distr, <- Hs. now rewrite rev_involutive.
  - rewrite forallb_forall in *. intros x Hx. apply Hw. now apply in_rev.
Qed.

Lemma cleanHead_trimEnd (p : N -> bool) (s : jsstring) :
  cleanHead p s -> cleanHead p (trimEnd s).
Proof.
  intros H. destruct (trimEnd_split s) as [w [Hs _]].
  destruct (trimEnd s) as [|c t]; [exact I|].
  rewrite Hs in H. exact H.
Qed.

Lemma trimEnd_idem (s : jsstring) : trimEnd (trimEnd s) = trimEnd s.
Proof.
  unfold trimEnd, trimStart. rewrite rev_involutive. f_equal.
  apply dropWhile_id, dropWhile_cleanHead.
Qed.

Lemma trim_cleanHead (s : jsstring) : cleanHead isWhiteSpace (trim s).
Proof. apply cleanHead_trimEnd, dropWhile_cleanHead. Qed.

Lemma trim_idem (s : jsstring) : trim (trim s) = trim s.
Proof.
  unfold trim at 1. unfold trimStart.
  rewrite (dropWhile_id _ _ (trim_cleanHead s)).
  unfold trim. apply trimEnd_idem.
Qed.

Lemma trim_nil_of_nil (s : jsstring) : s = [] -> trim s = [].
Proof. now intros ->. Qed.

(** An occurrence of a word that neither starts nor ends with white space
    survives trimming. *)
Lemma trimStart_keeps (e : jsstring) (l r : jsstring) :
  e <> [] -> cleanHead isWhiteSpace e ->
  exists l', trimStart (l ++ e ++ r) = l' ++ e ++ r.
Proof.
  intros Hne Hh. induction l as [|c l IH].
  - exists []. destruct e as [|a e]; [congruence|].
    unfold trimStart. simpl in *. now rewrite Hh.
  - simpl. unfold trimStart. simpl. destruct (isWhiteSpace c).
    + exact IH.
    + now exists (c :: l).
Qed.

Lemma trimEnd_keeps (e : jsstring) (l r : jsstring) :
  e <> [] -> cleanHead isWhiteSpace (rev e) ->
  exists r', trimEnd (l ++ e ++ r) = l ++ e ++ r'.
Proof.
  intros Hne Hh. unfold trimEnd.
  rewrite !rev_app_distr, <- app_assoc.
  destruct (trimStart_keeps (rev e) (rev r) (rev l)) as [r' Hr']; auto.
  - intros Hn. apply Hne. rewrite <- (rev_involutive e), Hn. reflexivity.
  - rewrite Hr'. exists (rev r').
    rewrite !rev_app_distr, !rev_involutive, <- app_assoc. reflexivity.
Qed.

Lemma includes_trim (e s : jsstring) :
  e <> [] -> cleanHead isWhiteSpace e -> cleanHead isWhiteSpace (rev e) ->
  includes e s = true -> includes e (trim s) = true.
Proof.
  intros Hne Hh Hl H. apply includes_spec in H. destruct H as [l [r ->]].
  destruct (trimStart_keeps e l r Hne Hh) as [l' Hl'].
  destruct (trimEnd_keeps e l' r Hne Hl) as [r' Hr'].
  unfold trim. rewrite Hl', Hr'. apply includes_spec. eauto.
Qed.

Lemma splitGo_nonempty (sep s : jsstring) (skip : nat) (acc : jsstring) :
  splitGo sep s skip acc <> [].
Proof.
  revert skip acc. induction s as [|c s IH]; intros skip acc; simpl.
  - discriminate.
  - destruct skip; [|apply IH].
    destruct (startsWith sep (c :: s)); [discriminate | apply IH].
Qed.

Lemma indexOf_cons (p : jsstring) (c : N) (s : jsstring) :
  indexOf p (c :: s)
  = if startsWith p (c :: s) then Some 0 else option_map S (indexOf p s).
Proof. reflexivity. Qed.

Lemma startsWith_length (p s : jsstring) :
  startsWith p s = true -> List.length p <= List.length s.
Proof.
  intros H. apply startsWith_spec in H. destruct H as [r ->].
  rewrite length_app. lia.
Qed.

Lemma splitGo_skip (sep s : jsstring) (k : nat) (acc : jsstring) :
  k <= List.length s -> splitGo sep s k acc = splitGo sep (skipn k s) 0 acc.
Proof.
  revert k. induction s as [|c r IH]; intros [|k] Hk; try reflexivity.
  cbn [splitGo skipn]. apply IH. simpl in Hk. lia.
Qed.

(** [split] cuts at the first occurrence of the separator and goes on with
    what follows it. *)
Lemma splitGo_unfold (sep : jsstring) :
  sep <> [] ->
  forall s acc,
    splitGo sep s 0 acc
    = match indexOf sep s with
      | None => [rev acc ++ s]
      | Some i =>
        (rev acc ++ firstn i s)
          :: splitGo sep (skipn (i + List.length sep) s) 0 []
      end.
Proof.
  intros Hsep. induction s as [|c r IH]; intros acc.
  - destruct sep as [|a sep]; [congruence|]. cbn. now rewrite app_nil_r.
  - rewrite indexOf_cons. cbn [splitGo].
    destruct (startsWith sep (c :: r)) eqn:E.
    + rewrite firstn_O, app_nil_r. f_equal.
      apply startsWith_length in E. cbn [List.length] in E.
      rewrite splitGo_skip by lia.
      destruct sep as [|a sep]; [congruence|].
      cbn [List.length plus skipn].
      now replace (S (List.length sep) - 1) with (List.length sep) by lia.
    + rewrite IH. destruct (indexOf sep r) as [i|]; cbn [option_map rev].
      * cbn [firstn plus skipn]. now rewrite <- app_assoc.
      * now rewrite <- app_assoc.
Qed.

Lemma split_unfold (s : jsstring) :
  split SEP s
  = match indexOf SEP s with
    | None => [s]
    | Some i => firstn i s :: split SEP (skipn (i + List.length SEP) s)
    end.
Proof.
  unfold split. rewrite splitGo_unfold by discriminate. reflexivity.
Qed.

(** The first segment is what comes before the first separator, or the
    whole string. *)
Lemma firstSegment_spec (s : jsstring) :
  firstSegment s
  = Some match indexOf SEP s with
         | None => s
         | Some i => firstn i s
         end.
Proof.
  unfold firstSegment. rewrite split_unfold.
  destruct (indexOf SEP s); reflexivity.
Qed.

Lemma firstSegment_Some (s : jsstring) : exists first, firstSegment s = Some first.
Proof.
  unfold firstSegment, split.
  destruct (splitGo SEP s 0 []) as [|x l] eqn:E.
  - now apply splitGo_nonempty in E.
  - now exists x.
Qed.

(** ** Noise and screen-off lookups *)

Lemma isNoiseApp_In (name : jsstring) :
  isNoiseApp name = true <-> In (trim name) NOISE_APPS.
Proof. unfold isNoiseApp. rewrite orElse_nil. apply inList_In. Qed.

Lemma isScreenOffApp_In (name : jsstring) :
  isScreenOffApp name = true <-> In (trim name) SCREEN_OFF_APPS.
Proof. unfold isScreenOffApp. rewrite orElse_nil. apply inList_In. Qed.

Lemma SCREEN_OFF_incl_NOISE : incl SCREEN_OFF_APPS NOISE_APPS.
Proof.
  intros a H. unfold SCREEN_OFF_APPS in H. unfold NOISE_APPS.
  repeat (destruct H as [<- | H]; [simpl; tauto|]). destruct H.
Qed.

Lemma screenOff_is_noise (name : jsstring) :
  isScreenOffApp name = true -> isNoiseApp name = true.
Proof.
  rewrite isScreenOffApp_In, isNoiseApp_In. apply SCREEN_OFF_incl_NOISE.
Qed.

Lemma noise_entry_trimmed (a : jsstring) : In a NOISE_APPS -> trim a = a.
Proof.
  intros H. unfold NOISE_APPS in H.
  repeat (destruct H as [<- | H]; [reflexivity|]). destruct H.
Qed.

(** No entry of the noise list occurs inside another one, and every entry
    starts and ends with a code unit that is not white space. *)
Lemma noise_entries_apart (e e' : jsstring) :
  In e NOISE_APPS -> In e' NOISE_APPS -> includes e e' = true -> e = e'.
Proof.
  intros He He'. unfold NOISE_APPS in He, He'.
  repeat (destruct He as [<- | He]; [
    repeat (destruct He' as [<- | He']; [
      vm_compute; intros H; first [reflexivity | discriminate H] |]);
    destruct He' |]).
  destruct He.
Qed.

Lemma noise_entry_shape (e : jsstring) :
  In e NOISE_APPS ->
  e <> [] /\ cleanHead isWhiteSpace e /\ cleanHead isWhiteSpace (rev e).
Proof.
  intros H. unfold NOISE_APPS in H.
  repeat (destruct H as [<- | H]; [
    split; [discriminate | split; reflexivity] |]).
  destruct H.
Qed.

(** C5: every app name that [isScreenOffApp] accepts is accepted by
    [isNoiseApp]: the screen-off list is contained in the noise list; and an
    app name equal to a noise entry outside the screen-off list is noise but
    not screen-off. *)
Theorem screen_off_within_noise :
  (forall a, In a SCREEN_OFF_APPS -> In a NOISE_APPS)
  /\ (forall name, isScreenOffApp name = true -> isNoiseApp name = true)
  /\ (forall name, In name NOISE_APPS -> ~ In name SCREEN_OFF_APPS ->
        isNoiseApp name = true /\ isScreenOffApp name = false).
Proof.
  split; [exact SCREEN_OFF_incl_NOISE|]. split; [exact screenOff_is_noise|].
  intros name Hn Hs. split.
  - apply isNoiseApp_In. now rewrite (noise_entry_trimmed _ Hn).
  - destruct (isScreenOffApp name) eqn:E; [|reflexivity].
    apply isScreenOffApp_In in E. rewrite (noise_entry_trimmed _ Hn) in E.
    contradiction.
Qed.

Lemma screen_off_within_noise_witness :
  isNoiseApp (lit "系统桌面") = true
  /\ (isNoiseApp (lit "安全服务") = true /\ isScreenOffApp (lit "安全服务") = false).
Proof.
  destruct screen_off_within_noise as [_ [H1 H2]]. split.
  - apply H1. reflexivity.
  - apply H2.
    + vm_compute. tauto.
    + vm_compute. intuition discriminate.
Defined.

(** C6: an app name that contains a noise entry without being equal to it
    after trimming is neither noise nor screen-off. *)
Theorem noise_match_is_exact (name entry : jsstring) :
  In entry NOISE_APPS ->
  includes entry name = true ->
  trim name <> entry ->
  isNoiseApp name = false /\ isScreenOffApp name = false.
Proof.
  intros He Hinc Hneq.
  assert (Hn : isNoiseApp name = false).
  { destruct (isNoiseApp name) eqn:E; [|reflexivity]. exfalso.
    apply isNoiseApp_In in E.
    destruct (noise_entry_shape _ He) as [Hne [Hh Hl]].
    apply Hneq. symmetry.
    apply (noise_entries_apart _ _ He E).
    now apply includes_trim. }
  split; [exact Hn|].
  destruct (isScreenOffApp name) eqn:E; [|reflexivity].
  apply screenOff_is_noise in E. congruence.
Qed.

Lemma noise_match_is_exact_witness :
  isNoiseApp (lit "系统界面组件") = false
  /\ isScreenOffApp (lit "系统界面组件") = false.
Proof.
  apply (noise_match_is_exact (lit "系统界面组件") (lit "系统界面")).
  - vm_compute. tauto.
  - reflexivity.
  - vm_compute. discriminate.
Defined.

(** ** App name extraction and the asleep rule *)

Lemma getAppNameFromEvent_trimmed (ev : option ActivityEvent) :
  trim (getAppNameFromEvent ev) = getAppNameFromEvent ev.
Proof.
  destruct ev as [e|]; [|reflexivity]. unfold getAppNameFromEvent.
  assert (Happ : forall a : jsstring,
    trim (if isEmpty a then []
          else match firstSegment a with
               | Some first => trim first
               | None => []
               end)
    = (if isEmpty a then []
       else match firstSegment a with
            | Some first => trim first
            | None => []
            end)).
  { intros a. destruct (isEmpty a); [reflexivity|].
    destruct (firstSegment a); [apply trim_idem | reflexivity]. }
  cbv zeta.
  destruct (isEmpty (trim (optOr (window_title e) []))); [apply Happ|].
  destruct (firstSegment (trim (optOr (window_title e) [])));
    [apply trim_idem | apply Happ].
Qed.

Lemma optOr_Some_nonblank (wt d : jsstring) :
  trim wt <> [] -> optOr (Some wt) d = wt.
Proof.
  intros H. unfold optOr, orElse. destruct wt; [|reflexivity].
  exfalso. apply H. reflexivity.
Qed.





(** ** Music titles *)

Lemma cleanHead_noise_ws (s : jsstring) :
  cleanHead isLeadingNoise s -> cleanHead isWhiteSpace s.
Proof.
  destruct s as [|c s]; simpl; [trivial|]. unfold isLeadingNoise.
  intros H. apply orb_false_iff in H. destruct H as [H _].
  apply orb_false_iff in H. tauto.
Qed.

Lemma trimLeadingNoise_cleanHead (s : jsstring) :
  cleanHead isLeadingNoise (trimLeadingNoise s)
  /\ trim (trimLeadingNoise s) = trimLeadingNoise s.
Proof.
  unfold trimLeadingNoise. destruct (isEmpty s) eqn:E.
  - apply isEmpty_true in E. subst. split; [exact I | reflexivity].
  - split; [|apply trim_idem].
    unfold trim, trimStart.
    rewrite (dropWhile_id isWhiteSpace).
    + apply cleanHead_trimEnd, dropWhile_cleanHead.
    + apply cleanHead_noise_ws, dropWhile_cleanHead.
Qed.

Lemma trimLeadingNoise_idem (s : jsstring) :
  trimLeadingNoise (trimLeadingNoise s) = trimLeadingNoise s.
Proof.
  destruct (trimLeadingNoise_cleanHead s) as [Hh Ht].
  unfold trimLeadingNoise at 1.
  destruct (isEmpty (trimLeadingNoise s)); [reflexivity|].
  now rewrite (dropWhile_id _ _ Hh).
Qed.

Lemma indexOf_first (p s a b : jsstring) :
  firstSplit p s a b -> indexOf p s = Some (List.length a).
Proof.
  intros [Hs Hfirst]. subst s. induction a as [|c a IH].
  - rewrite app_nil_l. destruct (p ++ b) as [|x y] eqn:E; simpl.
    + rewrite <- E, startsWith_app. reflexivity.
    + rewrite <- E, startsWith_app. reflexivity.
  - assert (H0 : startsWith p ((c :: a) ++ p ++ b) = false).
    { apply (Hfirst 0). simpl. lia. }
    rewrite <- app_comm_cons in *. rewrite indexOf_cons, H0.
    rewrite IH; [reflexivity|].
    intros j Hj. apply (Hfirst (S j)). simpl. lia.
Qed.

Lemma firstSplit_of_indexOf (p s : jsstring) (i : nat) :
  indexOf p s = Some i ->
  firstSplit p s (firstn i s) (skipn (i + List.length p) s)
  /\ List.length (firstn i s) = i.
Proof.
  intros H. destruct (indexOf_Some _ _ _ H) as [Hs Hfirst].
  assert (Hlen : List.length (firstn i s) = i).
  { apply firstn_length_le.
    rewrite Hs, !length_app. rewrite length_firstn.
    destruct (Nat.le_gt_cases i (List.length s)) as [Hle|Hgt]; [lia|].
    exfalso. rewrite firstn_all2 in Hs by lia.
    apply (f_equal (@List.length N)) in Hs. rewrite !length_app in Hs.
    rewrite skipn_all2 in Hs by lia. simpl in Hs.
    assert (Hp : p = []) by (destruct p; [reflexivity | simpl in Hs; lia]).
    subst p. specialize (Hfirst (List.length s) Hgt).
    destruct (skipn (List.length s) s); discriminate. }
  split; [|exact Hlen]. split; [exact Hs|]. rewrite Hlen. exact Hfirst.
Qed.

Lemma startsWith_note_head (raw : jsstring) :
  startsWith NOTE_BEAMED raw = true \/ startsWith NOTE_SINGLE raw = true ->
  musicHeadTest raw = true.
Proof.
  destruct raw as [|c r]; [simpl; intuition discriminate|].
  unfold NOTE_BEAMED, NOTE_SINGLE. cbn [startsWith].
  intros [H|H]; apply andb_true_iff in H; destruct H as [H _];
    apply N.eqb_eq in H; subst c; reflexivity.
Qed.

Lemma isMusic_head (raw : jsstring) :
  musicHeadTest raw || startsWith NOTE_BEAMED raw || startsWith NOTE_SINGLE raw
  = musicHeadTest raw.
Proof.
  destruct (musicHeadTest raw) eqn:E; [reflexivity|].
  destruct (startsWith NOTE_BEAMED raw) eqn:E1.
  - rewrite startsWith_note_head in E; [discriminate | now left].
  - destruct (startsWith NOTE_SINGLE raw) eqn:E2; [|reflexivity].
    rewrite startsWith_note_head in E; [discriminate | now right].
Qed.

Lemma parseMusic_Some_iff (t : jsstring) :
  parseMusicWindowTitle t <> None <-> musicHeadTest (trim t) = true.
Proof.
  unfold parseMusicWindowTitle. destruct (isEmpty t) eqn:E.
  - apply isEmpty_true in E. subst t. simpl. split; [congruence | discriminate].
  - cbv zeta. rewrite isMusic_head.
    destruct (musicHeadTest (trim t)); simpl.
    + split; [reflexivity|]. intros _.
      destruct (indexOf SEP (trimLeadingNoise (trim t))); discriminate.
    + split; [congruence | discriminate].
Qed.

(** C1, as the code has it: a title whose trimmed form starts with 🎶 or 🎵,
    or with the replacement character U+FFFD, is classified as music; a
    title whose trimmed form is empty, or starts with a code unit other than
    U+FFFD and the halves 0xD83C, 0xDFB5, 0xDFB6 of the two note symbols, is
    not.  With [rest] the trimmed title without its leading run of U+FFFD,
    white space and surrogate code units: without a separator in [rest],
    song is [rest] and app is [rest], or "未知" when [rest] is empty;
    otherwise app and song are the parts before and after the first
    separator, each stripped of leading noise and trimmed, app being "未知"
    when that leaves nothing. *)
Theorem music_title_classification (t : jsstring) :
  (startsWith NOTE_BEAMED (trim t) = true
   \/ startsWith NOTE_SINGLE (trim t) = true
   \/ startsWith [0xFFFD%N] (trim t) = true ->
   parseMusicWindowTitle t <> None)
  /\ (trim t = []
      \/ (exists c r, trim t = c :: r
            /\ c <> 0xFFFD /\ c <> 0xD83C /\ c <> 0xDFB5 /\ c <> 0xDFB6)%N ->
      parseMusicWindowTitle t = None)
  /\ (forall m, parseMusicWindowTitle t = Some m ->
        let rest := trimLeadingNoise (trim t) in
        (includes SEP rest = false ->
           Music.app m = orElse rest UNKNOWN /\ Music.song m = rest)
        /\ (forall a b, firstSplit SEP rest a b ->
              Music.app m = orElse (trimLeadingNoise a) UNKNOWN
              /\ Music.song m = trimLeadingNoise b)).
Proof.
  split; [|split].
  - intros H. apply parseMusic_Some_iff.
    destruct H as [H | [H | H]].
    + apply startsWith_note_head. now left.
    + apply startsWith_note_head. now right.
    + destruct (trim t) as [|c r]; [discriminate|].
      cbn [startsWith] in H. apply andb_true_iff in H. destruct H as [H _].
      apply N.eqb_eq in H. subst c. reflexivity.
  - intros H.
    destruct (parseMusicWindowTitle t) eqn:E; [exfalso | reflexivity].
    assert (Hsome : parseMusicWindowTitle t <> None) by congruence.
    apply parseMusic_Some_iff in Hsome.
    destruct H as [H | [c [r [H [H1 [H2 [H3 H4]]]]]]]; rewrite H in Hsome.
    + discriminate.
    + unfold musicHeadTest, isMusicHeadUnit in Hsome.
      rewrite !orb_true_iff, !N.eqb_eq in Hsome. tauto.
  - intros m Hm rest. unfold parseMusicWindowTitle in Hm.
    destruct (isEmpty t); [discriminate|]. cbv zeta in Hm.
    destruct (negb _); [discriminate|]. fold rest in Hm.
    split.
    + intros Hinc. unfold includes in Hinc.
      destruct (indexOf SEP rest); [discriminate|].
      injection Hm as <-. simpl. unfold rest.
      rewrite trimLeadingNoise_idem, orElse_nil. split; reflexivity.
    + intros a b Hsplit. rewrite (indexOf_first _ _ _ _ Hsplit) in Hm.
      injection Hm as <-. simpl. destruct Hsplit as [Hs _].
      unfold sliceTo, sliceFrom. rewrite Hs.
      rewrite firstn_app, firstn_all, Nat.sub_diag, firstn_O, app_nil_r.
      rewrite orElse_nil.
      rewrite skipn_app.
      rewrite (skipn_all2 a) by lia. rewrite app_nil_l.
      replace (List.length a + 3 - List.length a) with 3 by lia.
      split; reflexivity.
Qed.

Lemma music_title_classification_witness :
  let t := lit "🎶 网易云音乐 - 晴天" in
  let m := {| Music.app := lit "网易云音乐"; Music.song := lit "晴天" |} in
  parseMusicWindowTitle t <> None
  /\ parseMusicWindowTitle (lit "微信 - com.tencent.mm") = None
  /\ Music.app m = orElse (trimLeadingNoise (lit "网易云音乐")) UNKNOWN
  /\ Music.song m = trimLeadingNoise (lit "晴天").
Proof.
  intros t m.
  destruct (music_title_classification t) as [Hnote [_ Hparts]]. split; [|split].
  - apply Hnote. left. vm_compute. reflexivity.
  - apply (proj1 (proj2 (music_title_classification (lit "微信 - com.tencent.mm")))).
    right. exists 0x5FAE%N, (lit "信 - com.tencent.mm").
    split; [vm_compute; reflexivity|]. repeat split; discriminate.
  - assert (Hm : parseMusicWindowTitle t = Some m) by (vm_compute; reflexivity).
    apply (proj2 (Hparts m Hm) (lit "网易云音乐") (lit "晴天")).
    split; [vm_compute; reflexivity|].
    intros j Hj. do 5 (destruct j; [vm_compute; reflexivity|]).
    simpl in Hj. lia.
Defined.

(** Counterexample to C1 as stated.  A title that starts with the
    replacement character alone is classified as music, though nothing of it
    starts with a note symbol once the leading noise is discarded.  In a
    music title the app is not the raw part before the first separator: it
    is trimmed, and it is "未知" when the remainder is empty.  And a note
    symbol behind an unpaired surrogate is not seen. *)
Lemma music_rule_counterexample :
  (let t := (0xFFFD :: lit "abc")%N in
   parseMusicWindowTitle t
     = Some {| Music.app := lit "abc"; Music.song := lit "abc" |}
   /\ spec_isMusic t = false
   /\ ~ (parseMusicWindowTitle t <> None <-> spec_isMusic t = true))
  /\ (let t := lit "🎵A  - B" in
      parseMusicWindowTitle t
        = Some {| Music.app := lit "A"; Music.song := lit "B" |}
      /\ firstSplit SEP (trimLeadingNoise (trim t)) (lit "A ") (lit "B")
      /\ firstSplit SEP (spec_discardLeading t) (lit "🎵A ") (lit "B"))
  /\ (let t := lit "🎵" in
      parseMusicWindowTitle t
        = Some {| Music.app := UNKNOWN; Music.song := [] |}
      /\ trimLeadingNoise (trim t) = [])
  /\ (let t := (0xD800 :: lit "🎵a")%N in
      parseMusicWindowTitle t = None /\ spec_isMusic t = true).
Proof.
  split; [|split; [|split]]; [| | |split; reflexivity].
  - split; [reflexivity|]. split; [reflexivity|].
    intros [H _]. assert (E : spec_isMusic (0xFFFD :: lit "abc")%N = true).
    { apply H. discriminate. }
    vm_compute in E. discriminate.
  - split; [reflexivity|]. split; (split; [reflexivity|]); intros j Hj.
    + do 2 (destruct j; [reflexivity|]). simpl in Hj. lia.
    + do 4 (destruct j; [reflexivity|]). simpl in Hj. lia.
  - split; reflexivity.
Qed.

(** C3, as the code has it: the part before the separator is the app and the
    part after it the song. *)
Theorem music_title_example :
  parseMusicWindowTitle (lit "🎵 好歌 - 网易云音乂")
  = Some {| Music.app := lit "好歌"; Music.song := lit "网易云音乂" |}.
Proof. reflexivity. Qed.

(** Counterexample to C3 as stated: the parser does not give app "网易云音乂" and song
    "好歌" for this title. *)
Lemma music_title_example_counterexample :
  parseMusicWindowTitle (lit "🎵 好歌 - 网易云音乂")
  <> Some {| Music.app := lit "网易云音乂"; Music.song := lit "好歌" |}.
Proof. vm_compute. discriminate. Qed.

(** ** Browser-style titles *)

Lemma trimmedSegments_shape (t p : jsstring) :
  In p (trimmedSegments t) -> p <> [] /\ trim p = p.
Proof.
  unfold trimmedSegments. rewrite filter_In, in_map_iff.
  intros [[x [<- _]] Hne]. split.
  - apply isEmpty_false. now destruct (isEmpty (trim x)).
  - apply trim_idem.
Qed.




(** ** Daily statistics: counts and percentages *)


Lemma bump_totalCount (k : jsstring) (byApp : list (jsstring * Z)) :
  totalCount (bump k byApp) = (totalCount byApp + 1)%Z.
Proof.
  induction byApp as [|[k' n] r IH]; simpl; [reflexivity|].
  destruct (JS.eqb k k'); simpl; [lia | rewrite IH; lia].
Qed.

Lemma bump_positive (k : jsstring) (byApp : list (jsstring * Z)) :
  Forall (fun kv => (1 <= snd kv)%Z) byApp ->
  Forall (fun kv => (1 <= snd kv)%Z) (bump k byApp).
Proof.
  induction 1 as [|[k' n] r Hn Hr IH]; simpl.
  - constructor; [simpl; lia | constructor].
  - destruct (JS.eqb k k'); constructor; simpl in *; auto; lia.
Qed.

Lemma tally_invariant (isPhone : bool) (deviceEvents : list ActivityEvent)
  (acc : list (jsstring * Z)) :
  Forall (fun kv => (1 <= snd kv)%Z) acc ->
  let r := fold_left
             (fun byApp ev => bump (getAppNameForStats (Some ev) isPhone) byApp)
             deviceEvents acc in
  Forall (fun kv => (1 <= snd kv)%Z) r
  /\ totalCount r = (totalCount acc + Z.of_nat (List.length deviceEvents))%Z.
Proof.
  revert acc. induction deviceEvents as [|ev evs IH]; intros acc Hacc r; subst r.
  - cbn [fold_left List.length]. split; [assumption | simpl; lia].
  - cbn [fold_left List.length].
    destruct (IH _ (bump_positive (getAppNameForStats (Some ev) isPhone) _ Hacc))
      as [Hpos Htot].
    split; [exact Hpos|]. rewrite Htot, bump_totalCount, Nat2Z.inj_succ. lia.
Qed.

Lemma count_le_totalCount (byApp : list (jsstring * Z)) (kv : jsstring * Z) :
  Forall (fun kv => (1 <= snd kv)%Z) byApp ->
  In kv byApp -> (snd kv <= totalCount byApp)%Z /\ (0 <= totalCount byApp)%Z.
Proof.
  induction 1 as [|x r Hx Hr IH]; intros Hin; [destruct Hin|].
  simpl. assert (0 <= totalCount r)%Z.
  { clear IH Hin. induction Hr; simpl; lia. }
  destruct Hin as [-> | Hin]; [lia|]. destruct (IH Hin). lia.
Qed.

(** Every bucket counts at least one and at most all events of its device. *)
Lemma tally_count_bound (deviceEvents : list ActivityEvent) (isPhone : bool)
  (kv : jsstring * Z) :
  In kv (tally deviceEvents isPhone) ->
  (1 <= snd kv <= Z.of_nat (List.length deviceEvents))%Z.
Proof.
  intros Hin. unfold tally in Hin.
  destruct (tally_invariant isPhone deviceEvents [] (Forall_nil _)) as [Hpos Htot].
  cbv zeta in Hpos, Htot. split.
  - rewrite Forall_forall in Hpos. now apply Hpos.
  - destruct (count_le_totalCount _ kv Hpos Hin) as [Hle _].
    rewrite Htot in Hle. simpl in Hle. lia.
Qed.










(** ** Daily statistics: sections *)

Ltac count_literals :=
  repeat match goal with
  | |- context [List.length (lit ?s)] =>
    let n := eval vm_compute in (List.length (lit s)) in
    change (List.length (lit s)) with n
  end.

Lemma itemLines_long (covered : Z) (items : list Item.t) (i : nat) (l : jsstring) :
  In l (itemLines covered i items) -> 8 <= List.length l.
Proof.
  revert i. induction items as [|item r IH]; intros i; cbn [itemLines In].
  - tauto.
  - intros [<- | H]; [|exact (IH _ H)].
    rewrite !length_app. count_literals. lia.
Qed.

Lemma headLine_long (heartbeatSec elapsed : Z) (name : jsstring)
  (todayEvents : list ActivityEvent) :
  8 <= List.length (headLine heartbeatSec elapsed name todayEvents).
Proof. unfold headLine. rewrite !length_app. count_literals. lia. Qed.

Lemma block_lines_shape (heartbeatSec elapsed : Z)
  (deviceEvents : list ActivityEvent) (deviceLabel l : jsstring) :
  In l (lines (buildDeviceBlock heartbeatSec elapsed deviceEvents deviceLabel)) ->
  l = lit "▶" ++ deviceLabel \/ 8 <= List.length l.
Proof.
  unfold buildDeviceBlock. destruct deviceEvents as [|e r]; cbn [lines In].
  - tauto.
  - intros [<- | H]; [now left | right]. exact (itemLines_long _ _ _ _ H).
Qed.

(** C8: a device kind without events gives no lines and no covered seconds;
    the report then consists of the head line and the lines of the other
    device's block, and the section header of the empty device is not among
    its lines. *)
Theorem empty_device_has_no_section (heartbeatSec elapsed : Z) (name : jsstring)
  (todayEvents : list ActivityEvent) :
  (forall deviceLabel,
     lines (buildDeviceBlock heartbeatSec elapsed [] deviceLabel) = []
     /\ coveredSeconds (buildDeviceBlock heartbeatSec elapsed [] deviceLabel) = 0%Z)
  /\ (pcEventsOf name todayEvents = [] ->
        todayLines heartbeatSec elapsed name todayEvents
        = headLine heartbeatSec elapsed name todayEvents
            :: lines (buildDeviceBlock heartbeatSec elapsed
                        (phoneEventsOf todayEvents) PHONE_LABEL)
        /\ ~ In (lit "▶" ++ PC_LABEL)
                (todayLines heartbeatSec elapsed name todayEvents))
  /\ (phoneEventsOf todayEvents = [] ->
        todayLines heartbeatSec elapsed name todayEvents
        = headLine heartbeatSec elapsed name todayEvents
            :: lines (buildDeviceBlock heartbeatSec elapsed
                        (pcEventsOf name todayEvents) PC_LABEL)
        /\ ~ In (lit "▶" ++ PHONE_LABEL)
                (todayLines heartbeatSec elapsed name todayEvents)).
Proof.
  split; [intros deviceLabel; split; reflexivity|].
  pose proof (headLine_long heartbeatSec elapsed name todayEvents) as Hhead.
  split; intros Hempty; unfold todayLines; rewrite Hempty;
    cbn [buildDeviceBlock lines]; rewrite ?app_nil_r; (split; [reflexivity|]);
    cbn [In]; intros [Heq | Hin].
  - rewrite Heq in Hhead. vm_compute in Hhead. lia.
  - apply block_lines_shape in Hin. destruct Hin as [Heq | Hlen].
    + vm_compute in Heq. discriminate.
    + vm_compute in Hlen. lia.
  - rewrite Heq in Hhead. vm_compute in Hhead. lia.
  - apply block_lines_shape in Hin. destruct Hin as [Heq | Hlen].
    + vm_compute in Heq. discriminate.
    + vm_compute in Hlen. lia.
Qed.

Lemma empty_device_has_no_section_witness :
  let ev := {| machine := Some (lit "my-phone");
               window_title := Some (lit "X - com.x");
               app := None; access_time := Some (TimeMs 0) |} in
  todayLines 60 3600 (lit "雨核") (repeat ev 5)
  = [lit "雨核今天截止目前有8.3%的时间都被我视奸到了呢 这是他的设备今天的使用情况";
     lit "▶手机"; lit "1.X 用了5分钟 占比100.0%"]
  /\ ~ In (lit "▶电脑") (todayLines 60 3600 (lit "雨核") (repeat ev 5)).
Proof.
  intros ev.
  assert (E : pcEventsOf (lit "雨核") (repeat ev 5) = [])
    by (vm_compute; reflexivity).
  destruct (empty_device_has_no_section 60 3600 (lit "雨核") (repeat ev 5))
    as [_ [H _]].
  destruct (H E) as [H1 H2]. split.
  - rewrite H1. vm_compute. reflexivity.
  - intros Hin. apply H2. vm_compute. vm_compute in Hin. exact Hin.
Defined.


Example ten_heartbeats_one_bucket :
  let ev := {| machine := Some (lit "my-phone");
               window_title := Some (lit "X - com.x");
               app := None; access_time := Some (TimeMs 0) |} in
  sortedItems 60 (repeat ev 10) true
  = [{| Item.app := lit "X"; Item.count := 10; Item.seconds := 600 |}]
  /\ lines (buildDeviceBlock 60 3600 (repeat ev 10) PHONE_LABEL)
     = [lit "▶手机"; lit "1.X 用了10分钟 占比100.0%"].
Proof. split; vm_compute; reflexivity. Qed.

(** ** The advisory line of 雨核 *)

Lemma includes_field (field : option jsstring) (k : jsstring) :
  k <> [] -> (includes k (optOr field []) = true <-> fieldContains field k).
Proof.
  intros Hk. rewrite includes_spec. unfold fieldContains. split.
  - intros [l [r H]]. destruct field as [w|].
    + simpl in H. rewrite orElse_nil in H. now exists w, l, r.
    + simpl in H. symmetry in H. apply app_eq_nil in H. destruct H as [_ H].
      apply app_eq_nil in H. destruct H as [H _]. contradiction.
  - intros [w [l [r [-> ->]]]]. exists l, r. simpl. now rewrite orElse_nil.
Qed.

Lemma last_app_nonempty (x y : jsstring) (d : N) :
  y <> [] -> last (x ++ y) d = last y d.
Proof.
  intros Hy. induction x as [|a x IH]; [reflexivity|].
  rewrite <- app_comm_cons. cbn [last].
  destruct (x ++ y) eqn:E; [|exact IH].
  apply app_eq_nil in E. destruct E as [_ E]. contradiction.
Qed.

Lemma endsWith_last (suffix s : jsstring) (d : N) :
  suffix <> [] -> endsWith suffix s -> last s d = last suffix d.
Proof. intros Hs [pre ->]. now apply last_app_nonempty. Qed.

Lemma formatPersonBlock_last (localFields : Z -> LocalFields) (name : jsstring)
  (phoneData pcData : option ActivityEvent) :
  last (formatPersonBlock localFields name phoneData pcData false) 0%N = 0x43%N.
Proof.
  unfold formatPersonBlock. cbv zeta.
  set (phoneBlock := match phoneData with None => _ | Some _ => _ end).
  clearbody phoneBlock.
  destruct pcData as [pc|]; cbn [join];
    rewrite !app_assoc; now rewrite last_app_nonempty by discriminate.
Qed.

Lemma message_base_last (localFields : Z -> LocalFields) (name : jsstring)
  (phoneData pcData : option ActivityEvent) :
  last (lit "【" ++ name ++ lit "】" ++ NL
        ++ formatPersonBlock localFields name phoneData pcData false) 0%N
  = 0x43%N.
Proof.
  rewrite !app_assoc. rewrite last_app_nonempty.
  - apply formatPersonBlock_last.
  - intros H. pose proof (formatPersonBlock_last localFields name phoneData pcData) as L.
    rewrite H in L. discriminate.
Qed.

(** C9: for 雨核, when the state is not the asleep line and the window title
    or the app field of the phone event contains "范式：起源", the message is
    the usual report followed by the advisory line, once; when there is no
    phone event, or neither field contains the keyword, the message does not
    end with the advisory line. *)
Theorem raincore_advisory_line (localFields : Z -> LocalFields) (now : Z)
  (events : list ActivityEvent) :
  let phoneData := find (fun e => isPhoneDevice (machine e)) events in
  let pcData := find (fun e => negb (isPhoneDevice (machine e))) events in
  let report := lit "【" ++ RAINCORE ++ lit "】" ++ NL
                ++ formatPersonBlock localFields RAINCORE phoneData pcData false in
  let message := formatMessageByPerson localFields now RAINCORE events in
  (forall p, phoneData = Some p ->
     isAsleepCondition now phoneData pcData = false ->
     fieldContains (window_title p) RAINCORE_ZHIBA_KEYWORD
       \/ fieldContains (app p) RAINCORE_ZHIBA_KEYWORD ->
     message = report ++ ZHIBA_LINE /\ ~ endsWith ZHIBA_LINE report)
  /\ (phoneData = None
      \/ (exists p, phoneData = Some p
            /\ ~ fieldContains (window_title p) RAINCORE_ZHIBA_KEYWORD
            /\ ~ fieldContains (app p) RAINCORE_ZHIBA_KEYWORD) ->
      ~ endsWith ZHIBA_LINE message
      /\ (isAsleepCondition now phoneData pcData = false -> events <> [] ->
            message = report)).
Proof.
  intros phoneData pcData report message.
  assert (Hkey : RAINCORE_ZHIBA_KEYWORD <> []) by discriminate.
  assert (Hreport : ~ endsWith ZHIBA_LINE report).
  { intros H. apply (endsWith_last _ _ 0%N) in H; [|discriminate].
    unfold report in H. rewrite message_base_last in H. discriminate. }
  assert (Hmsg : events <> [] ->
    isAsleepCondition now phoneData pcData = false ->
    message = if match phoneData with Some _ => true | None => false end
                 && eventContainsKeyword phoneData RAINCORE_ZHIBA_KEYWORD
              then report ++ ZHIBA_LINE else report).
  { intros Hev Hasleep. unfold message, formatMessageByPerson.
    destruct events as [|e r]; [congruence|].
    change (JS.eqb RAINCORE PIMENG) with false.
    change (inList RAINCORE HIDE_PC_NAMES) with false.
    change (JS.eqb RAINCORE RAINCORE) with true. cbv iota.
    fold phoneData. fold pcData. rewrite Hasleep. reflexivity. }
  split.
  - intros p Hp Hasleep Hcontains. split; [|exact Hreport].
    assert (Hev : events <> []) by (intros ->; discriminate).
    rewrite (Hmsg Hev Hasleep), Hp. unfold eventContainsKeyword.
    change (isEmpty RAINCORE_ZHIBA_KEYWORD) with false. cbv iota.
    destruct Hcontains as [H | H]; apply (includes_field _ _ Hkey) in H;
      rewrite H; [reflexivity | now rewrite orb_true_r].
  - intros Habsent.
    assert (Hno : match phoneData with Some _ => true | None => false end
                  && eventContainsKeyword phoneData RAINCORE_ZHIBA_KEYWORD = false).
    { destruct Habsent as [-> | [p [-> [Hwt Happ]]]]; [reflexivity|].
      unfold eventContainsKeyword.
      change (isEmpty RAINCORE_ZHIBA_KEYWORD) with false. cbv iota.
      destruct (includes RAINCORE_ZHIBA_KEYWORD (optOr (window_title p) [])) eqn:E1.
      - apply (includes_field _ _ Hkey) in E1. contradiction.
      - destruct (includes RAINCORE_ZHIBA_KEYWORD (optOr (app p) [])) eqn:E2;
          [|reflexivity].
        apply (includes_field _ _ Hkey) in E2. contradiction. }
    split.
    + destruct events as [|e r] eqn:Eev.
      * intros H. apply (endsWith_last _ _ 0%N) in H; [|discriminate].
        vm_compute in H. discriminate.
      * destruct (isAsleepCondition now phoneData pcData) eqn:Hasleep.
        -- unfold message, formatMessageByPerson.
           change (JS.eqb RAINCORE PIMENG) with false.
           change (inList RAINCORE HIDE_PC_NAMES) with false. cbv iota.
           fold phoneData. fold pcData. rewrite Hasleep.
           intros H. apply (endsWith_last _ _ 0%N) in H; [|discriminate].
           vm_compute in H. discriminate.
        -- rewrite Hmsg, Hno; [exact Hreport | discriminate | reflexivity].
    + intros Hasleep Hev. now rewrite (Hmsg Hev Hasleep), Hno.
Qed.

Lemma raincore_advisory_line_witness :
  let localFields := fun _ : Z =>
    {| getMonth := 0; getDate := 1; getHours := 8; getMinutes := 30 |} in
  let p := {| machine := Some (lit "my-phone");
              window_title := Some (lit "范式：起源 - com.game");
              app := None; access_time := Some (TimeMs 0) |} in
  formatMessageByPerson localFields 1000 RAINCORE [p]
  = (lit "【" ++ RAINCORE ++ lit "】" ++ NL
     ++ formatPersonBlock localFields RAINCORE (Some p) None false)
    ++ ZHIBA_LINE.
Proof.
  intros localFields p.
  assert (Hphone : find (fun e => isPhoneDevice (machine e)) [p] = Some p)
    by (vm_compute; reflexivity).
  assert (Hpc : find (fun e => negb (isPhoneDevice (machine e))) [p] = None)
    by (vm_compute; reflexivity).
  pose proof (proj1 (raincore_advisory_line localFields 1000 [p]) p) as H.
  cbv zeta in H. rewrite Hphone, Hpc in H.
  assert (Hasleep : isAsleepCondition 1000 (Some p) None = false)
    by (vm_compute; reflexivity).
  assert (Hcontains : fieldContains (window_title p) RAINCORE_ZHIBA_KEYWORD
                      \/ fieldContains (app p) RAINCORE_ZHIBA_KEYWORD).
  { left. exists (lit "范式：起源 - com.game"), [], (lit " - com.game").
    split; vm_compute; reflexivity. }
  destruct (H eq_refl Hasleep Hcontains) as [Hmessage _]. exact Hmessage.
Defined.

(** ** The examples of the specification *)

Example browser_title_example :
  classifyTitle (lit "知乎 - 个人 - Microsoft Edge")
  = IsBrowser (lit "Microsoft Edge") (lit "知乎 - 个人").
Proof. vm_compute. reflexivity. Qed.

Example empty_title_is_plain : classifyTitle [] = IsPlain UNKNOWN.
Proof. vm_compute. reflexivity. Qed.

Example five_heartbeats_in_an_hour :
  let ev := {| machine := Some (lit "my-phone");
               window_title := Some (lit "X - com.x");
               app := None; access_time := Some (TimeMs 0) |} in
  coveredSeconds (buildDeviceBlock 60 3600 (repeat ev 5) PHONE_LABEL) = 300%Z
  /\ toFixed1 (totalPercent 60 3600 (lit "雨核") (repeat ev 5)) = lit "8.3".
Proof. split; vm_compute; reflexivity. Qed.

(** * Further properties of the plugin *)

(** ** Parts of strings *)

Lemma trim_part (s : jsstring) : exists l r, s = l ++ trim s ++ r.
Proof.
  destruct (dropWhile_split isWhiteSpace s) as [w [Hs _]].
  destruct (trimEnd_split (trimStart s)) as [w' [Hs' _]].
  exists w, w'. unfold trim. rewrite <- Hs'. exact Hs.
Qed.

Lemma trimLeadingNoise_part (s : jsstring) :
  exists l r, s = l ++ trimLeadingNoise s ++ r.
Proof.
  unfold trimLeadingNoise. destruct (isEmpty s).
  - exists [], []. now rewrite app_nil_r.
  - destruct (dropWhile_split isLeadingNoise s) as [w [Hs _]].
    destruct (trim_part (dropWhile isLeadingNoise s)) as [l [r H]].
    exists (w ++ l), r. rewrite <- app_assoc, <- H. exact Hs.
Qed.

Lemma includes_part (p x s : jsstring) :
  (exists l r, s = l ++ x ++ r) ->
  includes p s = false -> includes p x = false.
Proof.
  intros [l [r ->]] H. destruct (includes p x) eqn:E; [|reflexivity].
  apply includes_spec in E. destruct E as [l' [r' ->]].
  assert (includes p (l ++ (l' ++ p ++ r') ++ r) = true); [|congruence].
  apply includes_spec. exists (l ++ l'), (r' ++ r).
  now rewrite <- !app_assoc.
Qed.

Lemma includes_trim_false (p s : jsstring) :
  includes p s = false -> includes p (trim s) = false.
Proof. exact (includes_part p _ s (trim_part s)). Qed.

Lemma includes_trimLeadingNoise_false (p s : jsstring) :
  includes p s = false -> includes p (trimLeadingNoise s) = false.
Proof. exact (includes_part p _ s (trimLeadingNoise_part s)). Qed.

Lemma indexOf_bound (p s : jsstring) (i : nat) :
  indexOf p s = Some i -> i + List.length p <= List.length s.
Proof.
  intros H. destruct (firstSplit_of_indexOf _ _ _ H) as [[Hs _] Hlen].
  apply (f_equal (@List.length N)) in Hs. rewrite !length_app, Hlen in Hs. lia.
Qed.

(** What comes before the first occurrence of a word does not contain it. *)
Lemma firstn_indexOf_free (p s : jsstring) (i : nat) :
  p <> [] -> indexOf p s = Some i -> includes p (firstn i s) = false.
Proof.
  intros Hp H. destruct (indexOf_Some _ _ _ H) as [_ Hfirst].
  pose proof (indexOf_bound _ _ _ H) as Hb.
  destruct (includes p (firstn i s)) eqn:E; [|reflexivity]. exfalso.
  apply includes_spec in E. destruct E as [l [r E]].
  assert (Hlen : List.length l + List.length p + List.length r = i).
  { apply (f_equal (@List.length N)) in E.
    rewrite length_firstn, !length_app in E. lia. }
  assert (Hl : List.length l < i).
  { destruct p; [congruence|]. simpl in Hlen. lia. }
  specialize (Hfirst _ Hl).
  rewrite <- (firstn_skipn i s), E in Hfirst.
  rewrite <- !app_assoc, skipn_app, skipn_all, Nat.sub_diag in Hfirst.
  simpl in Hfirst. rewrite startsWith_app in Hfirst. discriminate.
Qed.

Lemma split_step_shorter (p s : jsstring) (i : nat) :
  p <> [] -> indexOf p s = Some i ->
  List.length (skipn (i + List.length p) s) < List.length s.
Proof.
  intros Hp H. pose proof (indexOf_bound _ _ _ H).
  rewrite length_skipn. destruct p; [congruence|]. simpl in *. lia.
Qed.

(** No segment of a split contains the separator. *)
Lemma split_segments_free (s seg : jsstring) :
  In seg (split SEP s) -> includes SEP seg = false.
Proof.
  remember (List.length s) as n eqn:Hn. revert s Hn seg.
  induction n as [n IH] using lt_wf_ind. intros s Hn seg.
  rewrite split_unfold. destruct (indexOf SEP s) as [i|] eqn:E.
  - intros [<- | Hin].
    + apply firstn_indexOf_free; [discriminate | exact E].
    + refine (IH _ _ _ eq_refl seg Hin). subst n.
      apply split_step_shorter; [discriminate | exact E].
  - intros [<- | []]. unfold includes. now rewrite E.
Qed.

Lemma join_cons (sep p : jsstring) (rest : list jsstring) :
  rest <> [] -> join sep (p :: rest) = p ++ sep ++ join sep rest.
Proof. destruct rest; [congruence | reflexivity]. Qed.

Lemma split_nonempty (s : jsstring) : split SEP s <> [].
Proof. apply splitGo_nonempty. Qed.

(** Joining the segments of a split gives the string back. *)
Lemma join_split (s : jsstring) : join SEP (split SEP s) = s.
Proof.
  remember (List.length s) as n eqn:Hn. revert s Hn.
  induction n as [n IH] using lt_wf_ind. intros s Hn.
  rewrite split_unfold. destruct (indexOf SEP s) as [i|] eqn:E; [|reflexivity].
  rewrite join_cons by apply split_nonempty.
  rewrite (IH (List.length (skipn (i + List.length SEP) s))); [| |reflexivity].
  - symmetry. now apply indexOf_Some.
  - subst n. apply split_step_shorter; [discriminate | exact E].
Qed.

Lemma join_removelast_last (sep : jsstring) (parts : list jsstring) (d : jsstring) :
  2 <= List.length parts ->
  join sep (removelast parts) ++ sep ++ last parts d = join sep parts.
Proof.
  induction parts as [|p [|q r] IH]; simpl List.length; intros H; try lia.
  destruct r as [|x r].
  - reflexivity.
  - change (removelast (p :: q :: x :: r)) with (p :: removelast (q :: x :: r)).
    change (last (p :: q :: x :: r) d) with (last (q :: x :: r) d).
    rewrite join_cons by (simpl; destruct r; discriminate).
    rewrite <- !app_assoc. rewrite IH by (simpl; lia). reflexivity.
Qed.

Lemma join_nonempty (sep : jsstring) (parts : list jsstring) :
  parts <> [] -> Forall (fun p => p <> []) parts -> join sep parts <> [].
Proof.
  intros Hne Hall. destruct parts as [|p r]; [congruence|].
  inversion Hall as [|? ? Hp _]; subst.
  destruct r; simpl; destruct p; try congruence; discriminate.
Qed.

(** ** The parsers: shape of the results *)

Lemma last_In (parts : list jsstring) (d : jsstring) :
  parts <> [] -> In (last parts d) parts.
Proof.
  induction parts as [|p r IH]; [congruence|]. intros _.
  destruct r as [|q r]; [now left|].
  right. apply IH. discriminate.
Qed.

Lemma removelast_incl (parts : list jsstring) (p : jsstring) :
  In p (removelast parts) -> In p parts.
Proof.
  induction parts as [|x r IH]; [tauto|].
  destruct r as [|y r]; [intros []|].
  intros [<- | H]; [now left | right; now apply IH].
Qed.

Lemma trimmedSegments_free (t p : jsstring) :
  In p (trimmedSegments t) -> includes SEP p = false.
Proof.
  unfold trimmedSegments. rewrite filter_In, in_map_iff.
  intros [[x [<- Hx]] _]. apply includes_trim_false.
  exact (split_segments_free _ _ Hx).
Qed.

Lemma clean_segments_kept (parts : list jsstring) :
  Forall (fun p => p <> [] /\ trim p = p) parts ->
  filter (fun p => negb (isEmpty p)) (map trim parts) = parts.
Proof.
  induction 1 as [|p r [Hp Ht] _ IH]; [reflexivity|].
  cbn [map filter]. rewrite Ht.
  apply isEmpty_false in Hp. rewrite Hp. cbn [negb]. now f_equal.
Qed.

(** X1: when every segment of a title is non-empty and free of surrounding
    white space, and there are at least two, the parsed window title, the
    separator and the parsed application name give the title back. *)
Theorem browser_title_round_trip (t : jsstring) :
  2 <= List.length (split SEP t) ->
  Forall (fun p => p <> [] /\ trim p = p) (split SEP t) ->
  exists b, parseBrowserStyleTitle t = Some b
            /\ windowTitle b ++ SEP ++ appName b = t.
Proof.
  intros Hlen Hall.
  assert (Hseg : trimmedSegments t = split SEP t)
    by exact (clean_segments_kept _ Hall).
  unfold parseBrowserStyleTitle. destruct (isEmpty t) eqn:E.
  - apply isEmpty_true in E. subst t. vm_compute in Hlen. lia.
  - rewrite Hseg. replace (List.length (split SEP t) <? 2) with false
      by (symmetry; apply Nat.ltb_ge; exact Hlen).
    eexists. split; [reflexivity|]. cbn [windowTitle appName].
    rewrite join_removelast_last by exact Hlen. apply join_split.
Qed.

Lemma browser_title_round_trip_witness :
  exists b, parseBrowserStyleTitle (lit "知乎 - 个人 - Microsoft Edge") = Some b
            /\ windowTitle b ++ SEP ++ appName b
               = lit "知乎 - 个人 - Microsoft Edge".
Proof.
  apply browser_title_round_trip.
  - vm_compute. lia.
  - apply Forall_forall. intros p Hp. vm_compute in Hp.
    destruct Hp as [<- | [<- | [<- | []]]]; split;
      first [discriminate | vm_compute; reflexivity].
Defined.

(** X2: a parsed browser-style title has a non-empty application name, free
    of surrounding white space and of the separator, and a non-empty window
    title. *)
Theorem browser_title_shape (t : jsstring) (b : BrowserTitle) :
  parseBrowserStyleTitle t = Some b ->
  appName b <> []
  /\ trim (appName b) = appName b
  /\ includes SEP (appName b) = false
  /\ windowTitle b <> [].
Proof.
  unfold parseBrowserStyleTitle. destruct (isEmpty t); [discriminate|].
  cbv zeta. destruct (List.length (trimmedSegments t) <? 2) eqn:E; [discriminate|].
  apply Nat.ltb_ge in E. intros H. injection H as <-. cbn [appName windowTitle].
  assert (Hne : trimmedSegments t <> []).
  { intros Hn. rewrite Hn in E. simpl in E. lia. }
  pose proof (last_In (trimmedSegments t) [] Hne) as Hin.
  destruct (trimmedSegments_shape _ _ Hin) as [H1 H2].
  split; [exact H1|]. split; [exact H2|].
  split; [exact (trimmedSegments_free _ _ Hin)|].
  apply join_nonempty.
  - destruct (trimmedSegments t) as [|p [|q r]]; simpl in E; try lia. discriminate.
  - apply Forall_forall. intros p Hp. apply removelast_incl in Hp.
    exact (proj1 (trimmedSegments_shape _ _ Hp)).
Qed.

Lemma browser_title_shape_witness :
  let b := {| appName := lit "Microsoft Edge"; windowTitle := lit "知乎 - 个人" |} in
  appName b <> []
  /\ trim (appName b) = appName b
  /\ includes SEP (appName b) = false
  /\ windowTitle b <> [].
Proof.
  intros b.
  apply (browser_title_shape (lit "  知乎 -  个人 - Microsoft Edge ") b).
  vm_compute. reflexivity.
Defined.

Lemma trimEnd_cleanEnd (s : jsstring) :
  cleanHead isWhiteSpace (rev (trimEnd s)).
Proof.
  unfold trimEnd, trimStart. rewrite rev_involutive. apply dropWhile_cleanHead.
Qed.

(** X3: [trimLeadingNoise] removes a leading run of U+FFFD, white space and
    surrogate code units and a trailing run of white space, and nothing
    else; what is left starts with none of the former and ends with none of
    the latter, and a second pass changes nothing. *)
Theorem trimLeadingNoise_normal (s : jsstring) :
  let r := trimLeadingNoise s in
  (exists l w, s = l ++ r ++ w
               /\ forallb isLeadingNoise l = true
               /\ forallb isWhiteSpace w = true)
  /\ cleanHead isLeadingNoise r
  /\ cleanHead isWhiteSpace (rev r)
  /\ trimLeadingNoise r = r.
Proof.
  intros r. split; [|split; [|split]].
  - unfold r, trimLeadingNoise. destruct (isEmpty s) eqn:E.
    + exists [], []. now rewrite app_nil_r.
    + destruct (dropWhile_split isLeadingNoise s) as [l [Hs Hl]].
      pose proof (dropWhile_cleanHead isLeadingNoise s) as Hh.
      unfold trim, trimStart.
      rewrite (dropWhile_id isWhiteSpace) by now apply cleanHead_noise_ws.
      destruct (trimEnd_split (dropWhile isLeadingNoise s)) as [w [Hd Hw]].
      exists l, w. rewrite <- Hd. auto.
  - apply trimLeadingNoise_cleanHead.
  - unfold r, trimLeadingNoise. destruct (isEmpty s) eqn:E.
    + apply isEmpty_true in E. subst s. exact I.
    + apply trimEnd_cleanEnd.
  - apply trimLeadingNoise_idem.
Qed.

Lemma orElse_UNKNOWN_shape (x : jsstring) :
  trim x = x -> cleanHead isLeadingNoise x -> includes SEP x = false ->
  orElse x UNKNOWN <> []
  /\ trim (orElse x UNKNOWN) = orElse x UNKNOWN
  /\ cleanHead isLeadingNoise (orElse x UNKNOWN)
  /\ includes SEP (orElse x UNKNOWN) = false.
Proof.
  intros Ht Hh Hs. unfold orElse. destruct x as [|c x]; cbn [isEmpty].
  - split; [discriminate|]. split; [reflexivity|]. split; reflexivity.
  - split; [discriminate|]. auto.
Qed.

(** X4: in a parsed music title the app is never empty and never contains
    the separator, and both app and song are free of leading noise and of
    surrounding white space. *)
Theorem music_title_shape (t : jsstring) (m : Music.t) :
  parseMusicWindowTitle t = Some m ->
  Music.app m <> []
  /\ includes SEP (Music.app m) = false
  /\ trim (Music.app m) = Music.app m
  /\ trim (Music.song m) = Music.song m
  /\ cleanHead isLeadingNoise (Music.app m)
  /\ cleanHead isLeadingNoise (Music.song m).
Proof.
  unfold parseMusicWindowTitle. destruct (isEmpty t); [discriminate|].
  cbv zeta. destruct (negb _); [discriminate|].
  set (rest := trimLeadingNoise (trim t)).
  assert (Hshape : forall x, includes SEP x = false ->
    let a := orElse (trimLeadingNoise x) UNKNOWN in
    a <> [] /\ includes SEP a = false /\ trim a = a /\ cleanHead isLeadingNoise a).
  { intros x Hx.
    destruct (trimLeadingNoise_cleanHead x) as [Hh Ht].
    destruct (orElse_UNKNOWN_shape (trimLeadingNoise x) Ht Hh
                (includes_trimLeadingNoise_false _ _ Hx)) as [H1 [H2 [H3 H4]]].
    cbv zeta. auto. }
  assert (Hsong : forall x,
    let s := orElse (trimLeadingNoise x) [] in
    trim s = s /\ cleanHead isLeadingNoise s).
  { intros x. cbv zeta. rewrite orElse_nil.
    destruct (trimLeadingNoise_cleanHead x). auto. }
  destruct (indexOf SEP rest) as [idx|] eqn:E; intros H; injection H as <-;
    cbn [Music.app Music.song].
  - destruct (Hshape (sliceTo idx rest)) as [H1 [H2 [H3 H4]]].
    { apply firstn_indexOf_free; [discriminate | exact E]. }
    destruct (Hsong (sliceFrom (idx + List.length SEP) rest)) as [H5 H6].
    auto 10.
  - destruct (Hshape rest) as [H1 [H2 [H3 H4]]].
    { unfold includes. now rewrite E. }
    destruct (Hsong rest) as [H5 H6]. auto 10.
Qed.

Lemma music_title_shape_witness :
  let m := {| Music.app := lit "未知"; Music.song := [] |} in
  Music.app m <> []
  /\ includes SEP (Music.app m) = false
  /\ trim (Music.app m) = Music.app m
  /\ trim (Music.song m) = Music.song m
  /\ cleanHead isLeadingNoise (Music.app m)
  /\ cleanHead isLeadingNoise (Music.song m).
Proof.
  intros m. apply (music_title_shape (lit " 🎵 ") m).
  vm_compute. reflexivity.
Defined.

(** X5: the key under which an event is counted in the daily statistics is
    never empty and has no surrounding white space, whatever the event and
    the device kind. *)
Theorem stats_key_usable (ev : option ActivityEvent) (isPhone : bool) :
  getAppNameForStats ev isPhone <> []
  /\ trim (getAppNameForStats ev isPhone) = getAppNameForStats ev isPhone.
Proof.
  assert (Hor : forall x, trim x = x ->
    orElse x UNKNOWN <> [] /\ trim (orElse x UNKNOWN) = orElse x UNKNOWN).
  { intros x Hx. unfold orElse. destruct x; cbn [isEmpty].
    - split; [discriminate | reflexivity].
    - split; [discriminate | exact Hx]. }
  unfold getAppNameForStats. destruct ev as [e|].
  - cbv zeta. destruct (parseMusicWindowTitle _) as [music|].
    + apply Hor, trimLeadingNoise_cleanHead.
    + destruct isPhone.
      * apply Hor, trimLeadingNoise_cleanHead.
      * destruct (parseBrowserStyleTitle _) as [browser|]; apply Hor, trim_idem.
  - split; [discriminate | reflexivity].
Qed.

(** ** Names for display and device kind *)

Lemma firstSegment_nil : firstSegment [] = Some [].
Proof. reflexivity. Qed.

(** X6: unless the window title is a non-empty blank string, the name shown
    for a phone is the name used for the noise test, or "-" when that one
    is empty; with a non-empty blank window title the shown name is "-"
    whatever the app field holds, although the noise test then reads the
    app field. *)
Theorem display_name_follows_app_name (e : ActivityEvent) :
  (window_title e = None \/ window_title e = Some []
   \/ (exists wt, window_title e = Some wt /\ trim wt <> []) ->
   getDisplayAppNameForPhone (Some e)
   = orElse (getAppNameFromEvent (Some e)) DASH)
  /\ (forall wt, window_title e = Some wt -> wt <> [] -> trim wt = [] ->
        getDisplayAppNameForPhone (Some e) = DASH
        /\ getAppNameFromEvent (Some e)
           = getAppNameFromEvent
               (Some {| machine := machine e; window_title := None;
                        app := app e; access_time := access_time e |})).
Proof.
  split.
  - intros H. unfold getDisplayAppNameForPhone, getAppNameFromEvent.
    assert (Habsent : optOr (window_title e) [] = [] ->
      forall d, optOr (window_title e) d = d).
    { destruct (window_title e) as [[|c w]|]; try reflexivity. discriminate. }
    destruct H as [H | [H | [wt [H Hwt]]]].
    + rewrite H. cbn [optOr]. cbn [trim trimStart trimEnd dropWhile rev isEmpty].
      cbv zeta. set (a := trim (optOr (app e) [])).
      destruct (isEmpty a) eqn:Ea.
      * apply isEmpty_true in Ea. rewrite Ea. reflexivity.
      * destruct (firstSegment_Some a) as [first ->]. reflexivity.
    + rewrite H. cbn [optOr orElse isEmpty].
      cbn [trim trimStart trimEnd dropWhile rev isEmpty].
      cbv zeta. set (a := trim (optOr (app e) [])).
      destruct (isEmpty a) eqn:Ea.
      * apply isEmpty_true in Ea. rewrite Ea. reflexivity.
      * destruct (firstSegment_Some a) as [first ->]. reflexivity.
    + rewrite H. rewrite !(optOr_Some_nonblank wt _ Hwt). cbv zeta.
      apply isEmpty_false in Hwt. rewrite Hwt.
      destruct (firstSegment_Some (trim wt)) as [first ->]. reflexivity.
  - intros wt H Hne Hblank. split.
    + unfold getDisplayAppNameForPhone. rewrite H.
      destruct wt as [|c w]; [congruence|]. cbn [optOr orElse isEmpty].
      rewrite Hblank. reflexivity.
    + unfold getAppNameFromEvent. rewrite H. cbn [window_title app optOr].
      rewrite orElse_nil, Hblank. reflexivity.
Qed.

Lemma display_name_follows_app_name_witness :
  let e := {| machine := None; window_title := Some (lit "  ");
              app := Some (lit "微信 - com.tencent.mm");
              access_time := None |} in
  getDisplayAppNameForPhone (Some e) = DASH
  /\ getAppNameFromEvent (Some e)
     = getAppNameFromEvent
         (Some {| machine := machine e; window_title := None;
                  app := app e; access_time := access_time e |}).
Proof.
  intros e.
  apply (proj2 (display_name_follows_app_name e) (lit "  ")).
  - reflexivity.
  - discriminate.
  - vm_compute. reflexivity.
Defined.

Lemma toLowerCase_app (a b : jsstring) :
  toLowerCase (a ++ b) = toLowerCase a ++ toLowerCase b.
Proof. apply map_app. Qed.

(** X7: a device identifier counts as a phone exactly when it contains one
    of the words phone, android, mobile, iq13, iqoo, in any mix of upper and
    lower case ASCII letters. *)
Theorem phone_device_iff (raw : jsstring) :
  isPhoneDevice (Some raw) = true <->
  exists l w r, raw = l ++ w ++ r /\ In (toLowerCase w) PHONE_PATTERNS.
Proof.
  unfold isPhoneDevice. split.
  - destruct (isEmpty raw); [discriminate|]. cbv zeta.
    rewrite existsb_exists. intros [w' [Hin Hinc]].
    apply includes_spec in Hinc. destruct Hinc as [l' [r' Heq]].
    unfold toLowerCase in Heq.
    apply map_eq_app in Heq. destruct Heq as [l [wr [-> [Hl Hwr]]]].
    apply map_eq_app in Hwr. destruct Hwr as [w [r [-> [Hw Hr]]]].
    exists l, w, r. split; [reflexivity|]. unfold toLowerCase. now rewrite Hw.
  - intros [l [w [r [-> Hin]]]].
    assert (Hw : w <> []).
    { intros ->. unfold PHONE_PATTERNS in Hin. simpl in Hin.
      intuition discriminate. }
    assert (E : isEmpty (l ++ w ++ r) = false).
    { apply isEmpty_false. intros H. apply app_eq_nil in H. destruct H as [_ H].
      apply app_eq_nil in H. tauto. }
    rewrite E. cbv zeta. apply existsb_exists.
    exists (toLowerCase w). split; [exact Hin|].
    apply includes_spec. exists (toLowerCase l), (toLowerCase r).
    now rewrite !toLowerCase_app.
Qed.

Lemma phone_device_iff_witness : isPhoneDevice (Some (lit "Pimeng-IQ13")) = true.
Proof.
  apply (proj2 (phone_device_iff (lit "Pimeng-IQ13"))).
  exists (lit "Pimeng-"), (lit "IQ13"), []. split.
  - vm_compute. reflexivity.
  - vm_compute. tauto.
Defined.

(** ** The message of a person *)

Lemma padStart2_ofZ (n : Z) :
  (0 <= n < 100)%Z -> padStart2 (ofZ n) = twoDigits n.
Proof.
  intros H.
  assert (Hk : forall k : nat, k < 100 ->
            padStart2 (ofZ (Z.of_nat k)) = twoDigits (Z.of_nat k)).
  { intros k Hlt. do 100 (destruct k as [|k]; [reflexivity|]). lia. }
  rewrite <- (Z2Nat.id n) by lia. apply Hk. lia.
Qed.

(** X8: a time stamp is shown as month-day hours:minutes of the host's
    local time, month counted from 1, each number with two digits. *)
Theorem fmtTime_format (localFields : Z -> LocalFields) (e : ActivityEvent)
  (ms : Z) :
  access_time e = Some (TimeMs ms) ->
  (0 <= getMonth (localFields ms) <= 11)%Z ->
  (1 <= getDate (localFields ms) <= 31)%Z ->
  (0 <= getHours (localFields ms) <= 23)%Z ->
  (0 <= getMinutes (localFields ms) <= 59)%Z ->
  fmtTime localFields (Some e)
  = twoDigits (getMonth (localFields ms) + 1) ++ lit "-"
    ++ twoDigits (getDate (localFields ms)) ++ lit " "
    ++ twoDigits (getHours (localFields ms)) ++ lit ":"
    ++ twoDigits (getMinutes (localFields ms)).
Proof.
  intros Ht Hmo Hd Hh Hmi. unfold fmtTime. rewrite Ht.
  now rewrite !padStart2_ofZ by lia.
Qed.

Lemma fmtTime_format_witness :
  let localFields := fun _ : Z =>
    {| getMonth := 0; getDate := 9; getHours := 8; getMinutes := 5 |} in
  let e := {| machine := None; window_title := None; app := None;
              access_time := Some (TimeMs 0) |} in
  fmtTime localFields (Some e) = lit "01-09 08:05".
Proof.
  intros localFields e.
  rewrite (fmtTime_format localFields e 0 eq_refl); [reflexivity | | | |];
    simpl; lia.
Defined.

Lemma hidden_name_facts (name : jsstring) :
  In name HIDE_PC_NAMES ->
  JS.eqb name PIMENG = false /\ inList name HIDE_PC_NAMES = true.
Proof.
  intros H. unfold HIDE_PC_NAMES in H.
  repeat (destruct H as [<- | H]; [split; reflexivity|]). destruct H.
Qed.

(** X9: for 音落 and 夜合 the message is built from the first phone event
    alone: two non-empty event lists with the same first phone event give
    the same message, whatever desktop events they hold. *)
Theorem hidden_pc_ignores_desktop (localFields : Z -> LocalFields) (now : Z)
  (name : jsstring) (events1 events2 : list ActivityEvent) :
  In name HIDE_PC_NAMES ->
  events1 <> [] -> events2 <> [] ->
  find (fun e => isPhoneDevice (machine e)) events1
  = find (fun e => isPhoneDevice (machine e)) events2 ->
  formatMessageByPerson localFields now name events1
  = formatMessageByPerson localFields now name events2.
Proof.
  intros Hname H1 H2 Hphone.
  destruct (hidden_name_facts name Hname) as [Hp Hh].
  unfold formatMessageByPerson.
  destruct events1 as [|a1 r1]; [congruence|].
  destruct events2 as [|a2 r2]; [congruence|].
  rewrite Hp, Hh, Hphone. reflexivity.
Qed.

Lemma hidden_pc_ignores_desktop_witness :
  let localFields := fun _ : Z =>
    {| getMonth := 0; getDate := 9; getHours := 8; getMinutes := 5 |} in
  let phone := {| machine := Some (lit "my-phone");
                  window_title := Some (lit "微信");
                  app := None; access_time := Some (TimeMs 0) |} in
  let pc := {| machine := Some (lit "desktop");
               window_title := Some (lit "知乎 - Microsoft Edge");
               app := None; access_time := Some (TimeMs 0) |} in
  formatMessageByPerson localFields 1000 (lit "音落") [pc; phone]
  = formatMessageByPerson localFields 1000 (lit "音落") [phone].
Proof.
  intros localFields phone pc.
  apply hidden_pc_ignores_desktop.
  - vm_compute. tauto.
  - discriminate.
  - discriminate.
  - vm_compute. reflexivity.
Defined.

(** X10: for 音落 and 夜合, whose desktop is never looked at, a first phone
    event that shows a screen-off app gives the asleep line, however recent
    a desktop event in the list is. *)
Theorem hidden_pc_asleep_on_screen_off (localFields : Z -> LocalFields)
  (now : Z) (name : jsstring) (events : list ActivityEvent) (p : ActivityEvent) :
  In name HIDE_PC_NAMES ->
  find (fun e => isPhoneDevice (machine e)) events = Some p ->
  In (getAppNameFromEvent (Some p)) SCREEN_OFF_APPS ->
  formatMessageByPerson localFields now name events = asleepLine name.
Proof.
  intros Hname Hphone Hoff.
  destruct (hidden_name_facts name Hname) as [Hp Hh].
  unfold formatMessageByPerson.
  destruct events as [|a r]; [discriminate|].
  rewrite Hp, Hh, Hphone. unfold isAsleepCondition.
  rewrite <- getAppNameFromEvent_trimmed in Hoff.
  apply isScreenOffApp_In in Hoff. rewrite Hoff. reflexivity.
Qed.

Lemma hidden_pc_asleep_on_screen_off_witness :
  let localFields := fun _ : Z =>
    {| getMonth := 0; getDate := 9; getHours := 8; getMinutes := 5 |} in
  let phone := {| machine := Some (lit "my-phone");
                  window_title := Some (lit "系统桌面");
                  app := None; access_time := Some (TimeMs 900) |} in
  let pc := {| machine := Some (lit "desktop");
               window_title := Some (lit "知乎 - Microsoft Edge");
               app := None; access_time := Some (TimeMs 999) |} in
  formatMessageByPerson localFields 1000 (lit "夜合") [pc; phone]
  = asleepLine (lit "夜合").
Proof.
  intros localFields phone pc.
  apply (hidden_pc_asleep_on_screen_off localFields 1000 (lit "夜合")
           [pc; phone] phone).
  - vm_compute. tauto.
  - vm_compute. reflexivity.
  - vm_compute. tauto.
Defined.

Lemma join_head (sep p : jsstring) (rest : list jsstring) :
  exists r, join sep (p :: rest) = p ++ r.
Proof.
  destruct rest as [|q rest].
  - exists []. simpl. now rewrite app_nil_r.
  - now exists (sep ++ join sep (q :: rest)).
Qed.

Ltac head_of_join :=
  match goal with
  | |- exists _, join ?sep (?p :: ?l) ++ _ = _ =>
    let x := fresh "x" in
    destruct (join_head sep p l) as [x ->];
    eexists; rewrite <- app_assoc; reflexivity
  end.

(** X11: the message of every person but 皮梦 starts with the name in
    brackets on a line of its own; that of 皮梦, when there are events and
    the state is not asleep, starts with the phone header and carries no
    name line. *)
Theorem message_head (localFields : Z -> LocalFields) (now : Z)
  (name : jsstring) (events : list ActivityEvent) :
  (name <> PIMENG ->
   exists rest, formatMessageByPerson localFields now name events
                = lit "【" ++ name ++ lit "】" ++ NL ++ rest)
  /\ (name = PIMENG -> events <> [] ->
      isAsleepCondition now (find (machineIs PIMENG_PHONE_MACHINE) events)
                            (find (machineIs PIMENG_PC_MACHINE) events) = false ->
      exists rest, formatMessageByPerson localFields now name events
                   = PHONE_HEADER ++ rest).
Proof.
  split.
  - intros Hname. unfold formatMessageByPerson.
    destruct events as [|a r]; [eexists; reflexivity|].
    destruct (JS.eqb name PIMENG) eqn:E; [apply eqb_eq in E; contradiction|].
    destruct (isAsleepCondition _ _ _); [eexists; reflexivity|].
    destruct (_ && _ && _).
    + eexists. rewrite <- !app_assoc. reflexivity.
    + eexists. reflexivity.
  - intros -> Hev Hasleep. unfold formatMessageByPerson.
    destruct events as [|a r]; [congruence|].
    change (JS.eqb PIMENG PIMENG) with true. cbv iota. rewrite Hasleep.
    unfold formatPimengMessage. cbv zeta.
    set (pcBlock := match find (machineIs PIMENG_PC_MACHINE) (a :: r) with
                    | Some _ => _ | None => _ end). clearbody pcBlock.
    destruct (find (machineIs PIMENG_PHONE_MACHINE) (a :: r)) as [p|].
    + destruct (isNoiseApp _).
      * head_of_join.
      * destruct (match parseMusicWindowTitle _ with Some _ => _ | None => _ end)
          as [phonePrefix phoneContent].
        head_of_join.
    + head_of_join.
Qed.

Lemma message_head_witness :
  let localFields := fun _ : Z =>
    {| getMonth := 0; getDate := 9; getHours := 8; getMinutes := 5 |} in
  exists rest, formatMessageByPerson localFields 1000 (lit "雨核") []
               = lit "【" ++ lit "雨核" ++ lit "】" ++ NL ++ rest.
Proof.
  intros localFields.
  apply (proj1 (message_head localFields 1000 (lit "雨核") [])).
  vm_compute. discriminate.
Defined.

(** ** Daily statistics: the buckets *)

Lemma eqb_sym (a b : jsstring) : JS.eqb a b = JS.eqb b a.
Proof.
  destruct (JS.eqb a b) eqn:E1, (JS.eqb b a) eqn:E2; try reflexivity.
  - apply eqb_eq in E1. subst. now rewrite eqb_refl in E2.
  - apply eqb_eq in E2. subst. now rewrite eqb_refl in E1.
Qed.

Lemma eqb_neq (a b : jsstring) : JS.eqb a b = false <-> a <> b.
Proof.
  split.
  - intros E H. subst. now rewrite eqb_refl in E.
  - intros H. destruct (JS.eqb a b) eqn:E; [|reflexivity].
    apply eqb_eq in E. contradiction.
Qed.

Lemma bump_assocCount (k k' : jsstring) (byApp : list (jsstring * Z)) :
  assocCount k' (bump k byApp)
  = (assocCount k' byApp + if JS.eqb k k' then 1 else 0)%Z.
Proof.
  induction byApp as [|[k0 n] r IH]; cbn [bump assocCount].
  - rewrite (eqb_sym k' k). lia.
  - destruct (JS.eqb k k0) eqn:E; cbn [assocCount].
    + apply eqb_eq in E. subst k0. rewrite (eqb_sym k' k).
      destruct (JS.eqb k k'); lia.
    + rewrite IH. lia.
Qed.

Lemma bump_keys (k : jsstring) (byApp : list (jsstring * Z)) :
  map fst (bump k byApp)
  = if inList k (map fst byApp) then map fst byApp else map fst byApp ++ [k].
Proof.
  induction byApp as [|[k0 n] r IH]; [reflexivity|].
  cbn [bump map fst inList existsb]. destruct (JS.eqb k k0) eqn:E.
  - reflexivity.
  - cbn [map fst orb]. rewrite IH. fold (inList k (map fst r)).
    destruct (inList k (map fst r)); reflexivity.
Qed.

Lemma bump_NoDup (k : jsstring) (byApp : list (jsstring * Z)) :
  NoDup (map fst byApp) -> NoDup (map fst (bump k byApp)).
Proof.
  intros H. rewrite bump_keys. destruct (inList k (map fst byApp)) eqn:E.
  - exact H.
  - apply NoDup_app; [exact H | repeat constructor; intros [] |].
    intros x Hx [<- | []].
    apply inList_In in Hx. congruence.
Qed.

Lemma bump_has_key (k : jsstring) (byApp : list (jsstring * Z)) :
  In k (map fst (bump k byApp))
  /\ forall k', In k' (map fst byApp) -> In k' (map fst (bump k byApp)).
Proof.
  rewrite bump_keys. destruct (inList k (map fst byApp)) eqn:E.
  - split; [now apply inList_In | auto].
  - split; [apply in_or_app; right; now left | intros; apply in_or_app; now left].
Qed.

Lemma tally_fold (isPhone : bool) (deviceEvents : list ActivityEvent)
  (acc : list (jsstring * Z)) :
  let r := fold_left
             (fun byApp ev => bump (getAppNameForStats (Some ev) isPhone) byApp)
             deviceEvents acc in
  (NoDup (map fst acc) -> NoDup (map fst r))
  /\ (forall k, assocCount k r
                = (assocCount k acc + eventsWithKey k deviceEvents isPhone)%Z)
  /\ (forall k, In k (map fst acc) -> In k (map fst r))
  /\ (forall ev, In ev deviceEvents ->
        In (getAppNameForStats (Some ev) isPhone) (map fst r)).
Proof.
  revert acc. induction deviceEvents as [|ev evs IH]; intros acc r; subst r.
  - cbn [fold_left]. repeat split; auto.
    + intros k. unfold eventsWithKey. simpl. lia.
    + intros ev [].
  - cbn [fold_left].
    destruct (IH (bump (getAppNameForStats (Some ev) isPhone) acc))
      as [Hnd [Hcount [Hkeys Hcover]]].
    destruct (bump_has_key (getAppNameForStats (Some ev) isPhone) acc)
      as [Hnew Hold].
    repeat split.
    + intros H. apply Hnd. now apply bump_NoDup.
    + intros k. rewrite Hcount, bump_assocCount. unfold eventsWithKey.
      cbn [filter]. destruct (JS.eqb (getAppNameForStats (Some ev) isPhone) k);
        cbn [List.length]; lia.
    + intros k Hk. apply Hkeys. now apply Hold.
    + intros ev' [<- | Hin]; [now apply Hkeys | now apply Hcover].
Qed.

Lemma assocCount_absent (k : jsstring) (byApp : list (jsstring * Z)) :
  ~ In k (map fst byApp) -> assocCount k byApp = 0%Z.
Proof.
  induction byApp as [|[k0 n] r IH]; [reflexivity|].
  cbn [map fst In assocCount]. intros H.
  assert (E : JS.eqb k k0 = false) by (apply eqb_neq; intuition congruence).
  rewrite E, IH; [lia | tauto].
Qed.

Lemma assocCount_In (k : jsstring) (n : Z) (byApp : list (jsstring * Z)) :
  NoDup (map fst byApp) -> In (k, n) byApp -> assocCount k byApp = n.
Proof.
  induction byApp as [|[k0 n0] r IH]; [intros _ []|].
  cbn [map fst assocCount]. intros Hnd Hin. inversion Hnd as [|? ? Hnot Hnd']; subst.
  destruct Hin as [Heq | Hin].
  - injection Heq as -> ->. rewrite eqb_refl, assocCount_absent by exact Hnot. lia.
  - assert (E : JS.eqb k k0 = false).
    { apply eqb_neq. intros ->. apply Hnot.
      change k0 with (fst (k0, n)). now apply in_map. }
    rewrite E, (IH Hnd' Hin). lia.
Qed.

Lemma insertIndexed_perm (x : N * (jsstring * Z)) (l : list (N * (jsstring * Z))) :
  Permutation (insertIndexed x l) (x :: l).
Proof.
  induction l as [|y r IH]; cbn [insertIndexed]; [reflexivity|].
  destruct (fst x <=? fst y)%N; [reflexivity|].
  rewrite IH. apply perm_swap.
Qed.

(** [Object.entries] lists every pair of the tally once. *)
Lemma Object_entries_perm (byApp : list (jsstring * Z)) :
  Permutation (Object_entries byApp) byApp.
Proof.
  unfold Object_entries. induction byApp as [|kv r IH]; [reflexivity|].
  cbn [indexedEntries filter]. destruct (arrayIndex (fst kv)) as [i|].
  - rewrite insertIndexed_perm. cbn [map snd List.app]. now constructor.
  - rewrite <- Permutation_middle. now constructor.
Qed.

Lemma insertItem_perm (x : Item.t) (l : list Item.t) :
  Permutation (insertItem x l) (x :: l).
Proof.
  induction l as [|y r IH]; cbn [insertItem]; [reflexivity|].
  destruct (Item.seconds y <=? Item.seconds x)%Z; [reflexivity|].
  rewrite IH. apply perm_swap.
Qed.

Lemma sortItems_perm (l : list Item.t) : Permutation (sortItems l) l.
Proof.
  induction l as [|x r IH]; [reflexivity|].
  cbn [sortItems fold_right]. rewrite insertItem_perm. now constructor.
Qed.

Lemma sortedItems_perm (heartbeatSec : Z) (deviceEvents : list ActivityEvent)
  (isPhone : bool) :
  Permutation (sortedItems heartbeatSec deviceEvents isPhone)
              (map (itemOf heartbeatSec) (tally deviceEvents isPhone)).
Proof.
  unfold sortedItems. rewrite sortItems_perm.
  apply Permutation_map, Object_entries_perm.
Qed.

(** X12: the buckets of a device have pairwise different apps; every event
    of the device falls under one of them; and each bucket counts exactly
    the events with its key, its seconds being that count times the
    heartbeat interval. *)
Theorem buckets_count_events (heartbeatSec : Z)
  (deviceEvents : list ActivityEvent) (isPhone : bool) :
  let items := sortedItems heartbeatSec deviceEvents isPhone in
  NoDup (map Item.app items)
  /\ (forall ev, In ev deviceEvents ->
        In (getAppNameForStats (Some ev) isPhone) (map Item.app items))
  /\ (forall item, In item items ->
        Item.count item = eventsWithKey (Item.app item) deviceEvents isPhone
        /\ (1 <= Item.count item)%Z
        /\ Item.seconds item = (Item.count item * heartbeatSec)%Z).
Proof.
  intros items.
  pose proof (sortedItems_perm heartbeatSec deviceEvents isPhone) as Hperm.
  fold items in Hperm.
  destruct (tally_fold isPhone deviceEvents []) as [Hnd [Hcount [_ Hcover]]].
  fold (tally deviceEvents isPhone) in Hnd, Hcount, Hcover.
  specialize (Hnd (NoDup_nil _)).
  assert (Hkeys : Permutation (map Item.app items)
                              (map fst (tally deviceEvents isPhone))).
  { rewrite Hperm, map_map. reflexivity. }
  split; [|split].
  - eapply Permutation_NoDup; [symmetry; exact Hkeys | exact Hnd].
  - intros ev Hin. eapply Permutation_in; [symmetry; exact Hkeys|].
    now apply Hcover.
  - intros item Hin. apply (Permutation_in _ Hperm) in Hin.
    apply in_map_iff in Hin. destruct Hin as [[k n] [<- Hkv]].
    cbn [itemOf Item.app Item.count Item.seconds fst snd].
    pose proof (assocCount_In k n _ Hnd Hkv) as Hn.
    rewrite Hcount in Hn. cbn [assocCount] in Hn.
    pose proof (tally_count_bound _ _ _ Hkv) as Hb. cbn [snd] in Hb.
    repeat split; lia.
Qed.

Lemma buckets_count_events_witness :
  let ev := {| machine := Some (lit "my-phone");
               window_title := Some (lit "X - com.x");
               app := None; access_time := Some (TimeMs 0) |} in
  let item := {| Item.app := lit "X"; Item.count := 3; Item.seconds := 180 |} in
  Item.count item = eventsWithKey (Item.app item) (repeat ev 3) true
  /\ (1 <= Item.count item)%Z
  /\ Item.seconds item = (Item.count item * 60)%Z.
Proof.
  intros ev item.
  apply (proj2 (proj2 (buckets_count_events 60 (repeat ev 3) true))).
  vm_compute. tauto.
Defined.

Lemma sumSeconds_perm (l l' : list Item.t) :
  Permutation l l' -> sumSeconds l = sumSeconds l'.
Proof.
  induction 1; cbn [sumSeconds fold_right] in *; try lia.
  fold (sumSeconds l) (sumSeconds l') in *. lia.
Qed.

Lemma sumSeconds_tally (heartbeatSec : Z) (byApp : list (jsstring * Z)) :
  sumSeconds (map (itemOf heartbeatSec) byApp)
  = (totalCount byApp * heartbeatSec)%Z.
Proof.
  induction byApp as [|kv r IH]; [reflexivity|].
  cbn [map sumSeconds fold_right totalCount itemOf Item.seconds].
  fold (sumSeconds (map (itemOf heartbeatSec) r)). fold (totalCount r).
  rewrite IH. lia.
Qed.

(** X13: the seconds of the buckets of a device add up to the covered
    seconds of that device. *)
Theorem bucket_seconds_add_up (heartbeatSec elapsed : Z)
  (deviceEvents : list ActivityEvent) (deviceLabel : jsstring) :
  sumSeconds (sortedItems heartbeatSec deviceEvents
                          (JS.eqb deviceLabel PHONE_LABEL))
  = coveredSeconds (buildDeviceBlock heartbeatSec elapsed deviceEvents deviceLabel).
Proof.
  rewrite (sumSeconds_perm _ _ (sortedItems_perm _ _ _)), sumSeconds_tally.
  destruct (tally_invariant (JS.eqb deviceLabel PHONE_LABEL) deviceEvents []
              (Forall_nil _)) as [_ Htot].
  cbv zeta in Htot. fold (tally deviceEvents (JS.eqb deviceLabel PHONE_LABEL)) in Htot.
  rewrite Htot. unfold buildDeviceBlock.
  destruct deviceEvents; cbn [coveredSeconds totalCount fold_right]; [reflexivity|].
  lia.
Qed.

Lemma insertItem_sorted (x : Item.t) (l : list Item.t) :
  Sorted (fun a b => (Item.seconds b <= Item.seconds a)%Z) l ->
  Sorted (fun a b => (Item.seconds b <= Item.seconds a)%Z) (insertItem x l).
Proof.
  induction 1 as [|y r Hr IH Hhd]; cbn [insertItem].
  - repeat constructor.
  - destruct (Item.seconds y <=? Item.seconds x)%Z eqn:E.
    + apply Z.leb_le in E. repeat constructor; assumption.
    + apply Z.leb_gt in E. constructor; [exact IH|].
      destruct r as [|z r]; cbn [insertItem].
      * constructor. lia.
      * inversion Hhd; subst.
        destruct (Item.seconds z <=? Item.seconds x)%Z; constructor; lia.
Qed.

(** X14: the buckets are listed by falling seconds: no bucket has fewer
    seconds than one listed after it. *)
Theorem buckets_ranked (heartbeatSec : Z) (deviceEvents : list ActivityEvent)
  (isPhone : bool) :
  StronglySorted (fun a b => (Item.seconds b <= Item.seconds a)%Z)
                 (sortedItems heartbeatSec deviceEvents isPhone).
Proof.
  apply Sorted_StronglySorted.
  - intros a b c Hab Hbc. lia.
  - unfold sortedItems.
    induction (map _ (Object_entries (tally deviceEvents isPhone))) as [|x r IH].
    + constructor.
    + cbn [sortItems fold_right]. apply insertItem_sorted. exact IH.
Qed.

(** ** Daily statistics: the day and the durations *)



Lemma digit_is_digit (n : N) : isDigit (0x30 + n mod 10)%N = true.
Proof.
  assert (H : (n mod 10 < 10)%N) by (apply N.mod_upper_bound; discriminate).
  revert H. generalize (n mod 10)%N. intros d H.
  unfold isDigit. apply andb_true_iff. split; apply N.leb_le; lia.
Qed.

Lemma digitsFuel_head (fuel : nat) (n : N) (acc : jsstring) :
  exists c rest, digitsFuel (S fuel) n acc = c :: rest /\ isDigit c = true.
Proof.
  revert n acc. induction fuel as [|f IH]; intros n acc.
  - cbn [digitsFuel]. exists (0x30 + n mod 10)%N, acc.
    split; [now destruct (n <? 10)%N|].
    apply digit_is_digit.
  - change (digitsFuel (S (S f)) n acc)
      with (if (n <? 10)%N then (0x30 + n mod 10)%N :: acc
            else digitsFuel (S f) (n / 10)%N ((0x30 + n mod 10)%N :: acc)).
    destruct (n <? 10)%N; [|apply IH].
    exists (0x30 + n mod 10)%N, acc. split; [reflexivity|].
    apply digit_is_digit.
Qed.

Lemma ofZ_head (z : Z) :
  (0 <= z)%Z -> exists c rest, ofZ z = c :: rest /\ isDigit c = true.
Proof.
  intros H. unfold ofZ. destruct z as [|p|p]; [| |lia]; apply digitsFuel_head.
Qed.

(** X16: a duration is written in whole hours and minutes: the seconds
    beyond the last full minute do not show, and the text is "不足1分钟"
    exactly for less than a minute. *)
Theorem formatDuration_minutes (seconds : Z) :
  (0 <= seconds)%Z ->
  formatDuration seconds = formatDuration (60 * (seconds / 60))
  /\ (formatDuration seconds = lit "不足1分钟" <-> (seconds < 60)%Z).
Proof.
  intros Hs. split.
  - unfold formatDuration.
    assert (H1 : (60 * (seconds / 60) / 3600 = seconds / 3600)%Z).
    { pose proof (Z.div_mod seconds 60).
      pose proof (Z.mod_pos_bound seconds 60).
      pose proof (Z.div_mod seconds 3600).
      pose proof (Z.mod_pos_bound seconds 3600).
      pose proof (Z.div_mod (60 * (seconds / 60)) 3600).
      pose proof (Z.mod_pos_bound (60 * (seconds / 60)) 3600). lia. }
    assert (H2 : ((60 * (seconds / 60)) mod 3600 / 60
                  = seconds mod 3600 / 60)%Z).
    { pose proof (Z.div_mod seconds 60).
      pose proof (Z.mod_pos_bound seconds 60).
      pose proof (Z.div_mod seconds 3600).
      pose proof (Z.mod_pos_bound seconds 3600).
      pose proof (Z.div_mod (60 * (seconds / 60)) 3600).
      pose proof (Z.mod_pos_bound (60 * (seconds / 60)) 3600).
      pose proof (Z.div_mod ((60 * (seconds / 60)) mod 3600) 60).
      pose proof (Z.mod_pos_bound ((60 * (seconds / 60)) mod 3600) 60).
      pose proof (Z.div_mod (seconds mod 3600) 60).
      pose proof (Z.mod_pos_bound (seconds mod 3600) 60).
      rewrite H1 in *. lia. }
    cbv zeta. now rewrite H1, H2.
  - unfold formatDuration. cbv zeta.
    set (h := (seconds / 3600)%Z). set (m := (seconds mod 3600 / 60)%Z).
    assert (Hh : (0 <= h)%Z) by (apply Z.div_pos; lia).
    assert (Hm : (0 <= m)%Z).
    { apply Z.div_pos; [|lia]. apply Z.mod_pos_bound. lia. }
    assert (Hsmall : (seconds < 60 <-> h = 0 /\ m = 0)%Z).
    { unfold h, m.
      pose proof (Z.div_mod seconds 3600).
      pose proof (Z.mod_pos_bound seconds 3600).
      pose proof (Z.div_mod (seconds mod 3600) 60).
      pose proof (Z.mod_pos_bound (seconds mod 3600) 60). lia. }
    assert (Hdigit : forall z rest, (0 <= z)%Z ->
              ofZ z ++ rest <> lit "不足1分钟").
    { intros z rest Hz Heq. destruct (ofZ_head z Hz) as [c [r [Hc Hd]]].
      rewrite Hc in Heq. injection Heq as -> _. discriminate. }
    destruct (0 <? h)%Z eqn:Eh; destruct (0 <? m)%Z eqn:Em; cbn [andb].
    + apply Z.ltb_lt in Eh. split; [intros H; now apply Hdigit in H | lia].
    + apply Z.ltb_lt in Eh. split; [intros H; now apply Hdigit in H | lia].
    + apply Z.ltb_lt in Em. split; [intros H; now apply Hdigit in H | lia].
    + apply Z.ltb_ge in Eh, Em. split; [lia | reflexivity].
Qed.

Lemma formatDuration_minutes_witness :
  formatDuration 3725 = formatDuration (60 * (3725 / 60))
  /\ (formatDuration 3725 = lit "不足1分钟" <-> (3725 < 60)%Z).
Proof. apply formatDuration_minutes. lia. Defined.

(** ** Configuration and request addresses *)

Lemma find_first {A : Type} (f : A -> bool) (before : list A) (x : A)
  (after : list A) :
  (forall y, In y before -> f y = false) -> f x = true ->
  find f (before ++ x :: after) = Some x.
Proof.
  intros Hbefore Hx. induction before as [|y r IH]; cbn [List.app find].
  - now rewrite Hx.
  - rewrite (Hbefore y) by now left. apply IH.
    intros z Hz. apply Hbefore. now right.
Qed.

(** X17: a trigger resolves to no names or to a list that is not empty;
    the trigger for everybody resolves to none here; and a trigger that is
    neither that one nor the team trigger resolves to the name of the first
    person configured with it, and to nothing when that person has no
    name. *)
Theorem names_by_trigger (c : SpyConfig) (trigger : jsstring) :
  (forall names, getNamesByTrigger c trigger = Some names -> names <> [])
  /\ getNamesByTrigger c ALL_TRIGGER = None
  /\ (trigger <> ALL_TRIGGER ->
      trigger <> optOr (teamTrigger c) DEFAULT_TEAM_TRIGGER ->
      forall before p after,
        arrayOr (persons c) = before ++ Some p :: after ->
        Person.trigger p = Some trigger ->
        (forall x, In x before -> hasTrigger trigger x = false) ->
        getNamesByTrigger c trigger
        = match Person.name p with
          | Some n => if isEmpty n then None else Some [n]
          | None => None
          end).
Proof.
  split; [|split].
  - intros names. unfold getNamesByTrigger.
    destruct (JS.eqb trigger ALL_TRIGGER); [discriminate|].
    destruct (JS.eqb trigger _).
    + cbv zeta. destruct (arrayOr (teamNames c)) as [|n r]; cbn; [discriminate|].
      intros H. injection H as <-. discriminate.
    + destruct (find _ _) as [[p|]|]; try discriminate.
      destruct (Person.name p) as [n|]; [|discriminate].
      destruct (isEmpty n); [discriminate|].
      intros H. injection H as <-. discriminate.
  - unfold getNamesByTrigger. now rewrite eqb_refl.
  - intros Hall Hteam before p after Hpersons Htrig Hbefore.
    unfold getNamesByTrigger.
    apply eqb_neq in Hall, Hteam. rewrite Hall, Hteam, Hpersons.
    rewrite (find_first (hasTrigger trigger) before (Some p) after Hbefore).
    + reflexivity.
    + unfold hasTrigger. now rewrite Htrig, eqb_refl.
Qed.

Lemma names_by_trigger_witness :
  let p1 := {| Person.name := Some (lit "雨核");
               Person.trigger := Some (lit "时间雨核");
               Person.apiBase := None |} in
  let p2 := {| Person.name := Some (lit "音落");
               Person.trigger := Some (lit "时间雨核");
               Person.apiBase := None |} in
  let c := {| persons := Some [None; Some p1; Some p2]; teamTrigger := None;
              teamNames := None; teamForwardTitle := None;
              heartbeatIntervalSeconds := None |} in
  getNamesByTrigger c (lit "时间雨核") = Some [lit "雨核"].
Proof.
  intros p1 p2 c.
  apply (proj2 (proj2 (names_by_trigger c (lit "时间雨核")))
           ltac:(vm_compute; discriminate) ltac:(vm_compute; discriminate)
           [None] p1 [Some p2]).
  - reflexivity.
  - reflexivity.
  - intros x [<- | []]. reflexivity.
Defined.

Lemma stripTrailingSlash_slash (b : jsstring) :
  stripTrailingSlash (b ++ [SLASH]) = b.
Proof.
  unfold stripTrailingSlash. rewrite rev_app_distr. cbn [rev List.app].
  now rewrite N.eqb_refl, rev_involutive.
Qed.

Lemma stripTrailingSlash_other (b : jsstring) :
  last b 0%N <> SLASH -> stripTrailingSlash b = b.
Proof.
  intros H. unfold stripTrailingSlash.
  destruct (rev b) as [|c r] eqn:E; [reflexivity|].
  destruct (c =? SLASH)%N eqn:Ec; [|reflexivity].
  apply N.eqb_eq in Ec. subst c. exfalso. apply H.
  rewrite <- (rev_involutive b), E. cbn [rev]. apply last_last.
Qed.

(** X18: an address is built alike from a base with and without a final
    slash; with no parameters it is the base followed by the path, with no
    question mark. *)
Theorem api_url_base_slash (API_BASE path b : jsstring)
  (params : list (jsstring * jsstring)) :
  last b 0%N <> SLASH ->
  getApiUrl API_BASE path params (Some (b ++ [SLASH]))
  = getApiUrl API_BASE path params (Some b)
  /\ getApiUrl API_BASE path [] (Some b) = b ++ path.
Proof.
  intros H. unfold getApiUrl.
  rewrite stripTrailingSlash_slash, (stripTrailingSlash_other b H).
  split; reflexivity.
Qed.

Lemma api_url_base_slash_witness :
  getApiUrl [] (lit "/api/names") [] (Some (lit "http://127.0.0.1:3100" ++ [SLASH]))
  = getApiUrl [] (lit "/api/names") [] (Some (lit "http://127.0.0.1:3100"))
  /\ getApiUrl [] (lit "/api/names") [] (Some (lit "http://127.0.0.1:3100"))
     = lit "http://127.0.0.1:3100" ++ lit "/api/names".
Proof. apply api_url_base_slash. vm_compute. discriminate. Defined.

Lemma wellFormed_forallb (s : jsstring) :
  forallb (fun c => (c <? 0x10000)%N) s = true -> wellFormed s.
Proof.
  intros H. apply Forall_forall. intros c Hc.
  rewrite forallb_forall in H. apply N.ltb_lt. now apply H.
Qed.

Lemma scalarValues_bound (s : jsstring) :
  wellFormed s -> Forall (fun cp => (cp < 0x110000)%N) (scalarValues s).
Proof.
  remember (List.length s) as n eqn:Hn. revert s Hn.
  induction n as [n IH] using lt_wf_ind. intros s Hn Hwf.
  destruct s as [|c r]; [constructor|].
  inversion Hwf as [|? ? Hc Hr]; subst. cbn [scalarValues].
  assert (Hrest : Forall (fun cp => (cp < 0x110000)%N) (scalarValues r)).
  { apply (IH (List.length r)); [simpl; lia | reflexivity | exact Hr]. }
  destruct (isHighSurrogate c) eqn:Eh.
  - destruct r as [|d r']; [repeat constructor|].
    destruct (isLowSurrogate d) eqn:El.
    + inversion Hr as [|? ? Hd Hr']; subst. constructor.
      * unfold isHighSurrogate in Eh. unfold isLowSurrogate in El.
        apply andb_true_iff in Eh, El. destruct Eh as [H1 H2], El as [H3 H4].
        apply N.leb_le in H1, H2, H3, H4. lia.
      * apply (IH (List.length r')); [simpl; lia | reflexivity | exact Hr'].
    + constructor; [reflexivity | exact Hrest].
  - destruct (isLowSurrogate c); constructor; try exact Hrest; [reflexivity|lia].
Qed.

Lemma utf8_bytes (cp : N) :
  (cp < 0x110000)%N -> Forall (fun b => (b < 256)%N) (utf8 cp).
Proof.
  intros H. unfold utf8.
  assert (Hm : forall x, (x mod 64 < 64)%N)
    by (intros x; apply N.mod_upper_bound; discriminate).
  destruct (cp <? 0x80)%N eqn:E1; [apply N.ltb_lt in E1; repeat constructor; lia|].
  destruct (cp <? 0x800)%N eqn:E2.
  { apply N.ltb_lt in E2.
    assert (cp / 64 < 32)%N by (apply N.Div0.div_lt_upper_bound; lia).
    pose proof (Hm cp). revert H0 H1.
    generalize (cp / 64)%N (cp mod 64)%N. intros. repeat constructor; lia. }
  destruct (cp <? 0x10000)%N eqn:E3.
  { apply N.ltb_lt in E3.
    assert (cp / 4096 < 16)%N by (apply N.Div0.div_lt_upper_bound; lia).
    pose proof (Hm cp). pose proof (Hm (cp / 64)%N). revert H0 H1 H2.
    generalize (cp / 4096)%N ((cp / 64) mod 64)%N (cp mod 64)%N.
    intros. repeat constructor; lia. }
  assert (cp / 262144 < 5)%N by (apply N.Div0.div_lt_upper_bound; lia).
  pose proof (Hm cp). pose proof (Hm (cp / 64)%N). pose proof (Hm (cp / 4096)%N).
  revert H0 H1 H2 H3.
  generalize (cp / 262144)%N ((cp / 4096) mod 64)%N ((cp / 64) mod 64)%N
             (cp mod 64)%N.
  intros. repeat constructor; lia.
Qed.

Lemma formByte_units (b : N) :
  (b < 256)%N -> forallb isUrlUnit (formByte b) = true.
Proof.
  intros H.
  assert (Hall : forallb (fun k => forallb isUrlUnit (formByte (N.of_nat k)))
                         (seq 0 256) = true) by (vm_compute; reflexivity).
  rewrite forallb_forall in Hall.
  rewrite <- (N2Nat.id b). apply Hall. apply in_seq. lia.
Qed.

Lemma formEncode_units (s : jsstring) :
  wellFormed s -> forallb isUrlUnit (formEncode s) = true.
Proof.
  intros H. unfold formEncode. apply forallb_forall. intros c Hc.
  apply in_flat_map in Hc. destruct Hc as [b [Hb Hc]].
  apply in_flat_map in Hb. destruct Hb as [cp [Hcp Hb]].
  pose proof (scalarValues_bound s H) as Hs. rewrite Forall_forall in Hs.
  pose proof (utf8_bytes cp (Hs cp Hcp)) as Hu. rewrite Forall_forall in Hu.
  pose proof (formByte_units b (Hu b Hb)) as Hf. rewrite forallb_forall in Hf.
  now apply Hf.
Qed.

(** X19: in the addresses of the status and the today requests the name is
    written with ASCII letters, digits and the characters [* - . _ + %]
    only, whatever the name holds: the address is the base, the path,
    [?name=] and the encoded name, followed for the status by [&limit=] and
    the limit, so that a name cannot add or end a parameter. *)
Theorem status_url_shape (API_BASE name : jsstring) (limit : N)
  (apiBase : option jsstring) :
  wellFormed name ->
  statusUrl API_BASE name limit apiBase
  = stripTrailingSlash (match apiBase with Some x => x | None => API_BASE end)
    ++ lit "/api/current-status?name=" ++ formEncode name
    ++ lit "&limit=" ++ formEncode (ofN limit)
  /\ todayUrl API_BASE name apiBase
     = stripTrailingSlash (match apiBase with Some x => x | None => API_BASE end)
       ++ lit "/api/today-events?name=" ++ formEncode name
  /\ forallb isUrlUnit (formEncode name) = true.
Proof.
  intros Hwf. split; [|split; [|now apply formEncode_units]].
  - unfold statusUrl, getApiUrl, searchParams. cbn [map fst snd join].
    change (formEncode (lit "name")) with (lit "name").
    change (formEncode (lit "limit")) with (lit "limit").
    cbn [isEmpty List.app]. rewrite <- !app_assoc. reflexivity.
  - unfold todayUrl, getApiUrl, searchParams. cbn [map fst snd join].
    change (formEncode (lit "name")) with (lit "name").
    cbn [isEmpty List.app]. rewrite <- ?app_assoc. reflexivity.
Qed.

Lemma status_url_shape_witness :
  statusUrl (lit "http://127.0.0.1:3100") (lit "雨核 a&b") 5 None
  = stripTrailingSlash (lit "http://127.0.0.1:3100")
    ++ lit "/api/current-status?name=" ++ formEncode (lit "雨核 a&b")
    ++ lit "&limit=" ++ formEncode (ofN 5)
  /\ todayUrl (lit "http://127.0.0.1:3100") (lit "雨核 a&b") None
     = stripTrailingSlash (lit "http://127.0.0.1:3100")
       ++ lit "/api/today-events?name=" ++ formEncode (lit "雨核 a&b")
  /\ forallb isUrlUnit (formEncode (lit "雨核 a&b")) = true.
Proof.
  apply (status_url_shape (lit "http://127.0.0.1:3100") (lit "雨核 a&b") 5 None).
  apply wellFormed_forallb. vm_compute. reflexivity.
Defined.

Example status_url_example :
  statusUrl (lit "http://127.0.0.1:3100/") (lit "雨核 a&b") 5 None
  = lit "http://127.0.0.1:3100/api/current-status?name=%E9%9B%A8%E6%A0%B8+a%26b&limit=5".
Proof. vm_compute. reflexivity. Qed.

(** ** The reply cache *)

Lemma leString_total (a b : jsstring) :
  leString a b = true \/ leString b a = true.
Proof.
  revert b. induction a as [|x a IH]; intros [|y b]; cbn [leString]; auto.
  destruct (x <? y)%N eqn:E1; [now left|].
  destruct (y <? x)%N eqn:E2; [now right|]. apply IH.
Qed.

Lemma leString_antisym (a b : jsstring) :
  leString a b = true -> leString b a = true -> a = b.
Proof.
  revert b. induction a as [|x a IH]; intros [|y b]; cbn [leString];
    try reflexivity; try discriminate.
  destruct (x <? y)%N eqn:E1; destruct (y <? x)%N eqn:E2; try discriminate.
  - apply N.ltb_lt in E1, E2. lia.
  - apply N.ltb_ge in E1, E2. intros H1 H2.
    assert (x = y) by lia. subst. f_equal. now apply IH.
Qed.

Lemma leString_trans (a b c : jsstring) :
  leString a b = true -> leString b c = true -> leString a c = true.
Proof.
  revert b c. induction a as [|x a IH]; intros [|y b] [|z c]; cbn [leString];
    try reflexivity; try discriminate.
  destruct (x <? y)%N eqn:E1; destruct (y <? z)%N eqn:E2;
    destruct (y <? x)%N eqn:E3; destruct (z <? y)%N eqn:E4;
    destruct (x <? z)%N eqn:E5; destruct (z <? x)%N eqn:E6;
    try reflexivity; try discriminate;
    rewrite ?N.ltb_lt, ?N.ltb_ge in *; try lia.
  apply IH.
Qed.

Lemma insertName_perm (x : jsstring) (l : list jsstring) :
  Permutation (insertName x l) (x :: l).
Proof.
  induction l as [|y r IH]; cbn [insertName]; [reflexivity|].
  destruct (leString x y); [reflexivity|].
  rewrite IH. apply perm_swap.
Qed.

Lemma sortNames_perm (l : list jsstring) : Permutation (sortNames l) l.
Proof.
  induction l as [|x r IH]; [reflexivity|].
  cbn [sortNames fold_right]. rewrite insertName_perm. now constructor.
Qed.

Lemma insertName_sorted (x : jsstring) (l : list jsstring) :
  Sorted (fun a b => leString a b = true) l ->
  Sorted (fun a b => leString a b = true) (insertName x l).
Proof.
  induction 1 as [|y r Hr IH Hhd]; cbn [insertName].
  - repeat constructor.
  - destruct (leString x y) eqn:E.
    + repeat constructor; assumption.
    + assert (Hyx : leString y x = true).
      { destruct (leString_total x y); congruence. }
      constructor; [exact IH|].
      destruct r as [|z r]; cbn [insertName].
      * now constructor.
      * inversion Hhd; subst. destruct (leString x z); now constructor.
Qed.

Lemma sortNames_sorted (l : list jsstring) :
  StronglySorted (fun a b => leString a b = true) (sortNames l).
Proof.
  apply Sorted_StronglySorted.
  - intros a b c. apply leString_trans.
  - induction l as [|x r IH]; [constructor|].
    cbn [sortNames fold_right]. now apply insertName_sorted.
Qed.

Lemma sorted_perm_eq (l1 l2 : list jsstring) :
  StronglySorted (fun a b => leString a b = true) l1 ->
  StronglySorted (fun a b => leString a b = true) l2 ->
  Permutation l1 l2 -> l1 = l2.
Proof.
  intros H1. revert l2. induction H1 as [|a l1 Hs1 IH Ha]; intros l2 H2 Hp.
  - apply Permutation_nil in Hp. now subst.
  - destruct H2 as [|b l2 Hs2 Hb].
    + apply Permutation_sym, Permutation_nil in Hp. discriminate.
    + assert (Hab : a = b).
      { rewrite Forall_forall in Ha, Hb.
        assert (Hin1 : In a (b :: l2))
          by (eapply Permutation_in; [exact Hp | now left]).
        assert (Hin2 : In b (a :: l1))
          by (eapply Permutation_in; [symmetry; exact Hp | now left]).
        destruct Hin1 as [-> | Hin1]; [reflexivity|].
        destruct Hin2 as [-> | Hin2]; [reflexivity|].
        apply leString_antisym; [now apply Ha | now apply Hb]. }
      subst b. f_equal. apply IH; [exact Hs2|].
      now apply Permutation_cons_inv in Hp.
Qed.

Lemma app_comma_inj (a b x y : jsstring) :
  ~ In COMMA a -> ~ In COMMA b ->
  a ++ COMMA :: x = b ++ COMMA :: y -> a = b /\ x = y.
Proof.
  revert b. induction a as [|c a IH]; intros [|d b] Ha Hb H;
    cbn [List.app] in H.
  - injection H as ->. now split.
  - injection H as <- _. exfalso. apply Hb. now left.
  - injection H as -> _. exfalso. apply Ha. now left.
  - injection H as -> H. destruct (IH b) as [-> ->]; auto.
    + intros Hin. apply Ha. now right.
    + intros Hin. apply Hb. now right.
Qed.

Lemma join_comma_inj (l1 l2 : list jsstring) :
  l1 <> [] -> l2 <> [] ->
  Forall (fun n => ~ In COMMA n) l1 -> Forall (fun n => ~ In COMMA n) l2 ->
  join [COMMA] l1 = join [COMMA] l2 -> l1 = l2.
Proof.
  revert l2. induction l1 as [|a r1 IH]; intros l2 Hn1 Hn2 H1 H2 Heq;
    [congruence|].
  destruct l2 as [|b r2]; [congruence|].
  inversion H1 as [|? ? Ha Hr1]; inversion H2 as [|? ? Hb Hr2]; subst.
  destruct r1 as [|p r1]; destruct r2 as [|q r2].
  - cbn [join] in Heq. now subst.
  - rewrite (join_cons _ b) in Heq by discriminate. cbn [join] in Heq.
    exfalso. apply Ha. rewrite Heq. apply in_or_app. right. now left.
  - rewrite (join_cons _ a) in Heq by discriminate. cbn [join] in Heq.
    exfalso. apply Hb. rewrite <- Heq. apply in_or_app. right. now left.
  - rewrite (join_cons _ a), (join_cons _ b) in Heq by discriminate.
    destruct (app_comma_inj _ _ _ _ Ha Hb Heq) as [-> Hrest].
    f_equal. apply IH; [discriminate | discriminate | assumption | assumption |].
    exact Hrest.
Qed.

(** X20: the cache key does not depend on the order of the names; and for
    non-empty lists of names without a comma, equal keys mean the same names
    up to order. *)
Theorem cache_key_by_names (names1 names2 : list jsstring) :
  (Permutation names1 names2 -> cacheKey names1 = cacheKey names2)
  /\ (names1 <> [] -> names2 <> [] ->
      Forall (fun n => ~ In COMMA n) names1 ->
      Forall (fun n => ~ In COMMA n) names2 ->
      cacheKey names1 = cacheKey names2 -> Permutation names1 names2).
Proof.
  split.
  - intros Hp. unfold cacheKey. f_equal.
    apply sorted_perm_eq; try apply sortNames_sorted.
    now rewrite !sortNames_perm.
  - intros Hn1 Hn2 H1 H2 Heq. unfold cacheKey in Heq.
    assert (Hs : sortNames names1 = sortNames names2).
    { apply join_comma_inj; try exact Heq.
      - intros E. pose proof (sortNames_perm names1) as P. rewrite E in P.
        apply Permutation_nil in P. contradiction.
      - intros E. pose proof (sortNames_perm names2) as P. rewrite E in P.
        apply Permutation_nil in P. contradiction.
      - eapply Permutation_Forall; [symmetry; apply sortNames_perm | exact H1].
      - eapply Permutation_Forall; [symmetry; apply sortNames_perm | exact H2]. }
    rewrite <- (sortNames_perm names1), Hs. apply sortNames_perm.
Qed.

Lemma cache_key_by_names_witness :
  cacheKey [lit "雨核"; lit "音落"; lit "夜合"]
  = cacheKey [lit "夜合"; lit "雨核"; lit "音落"].
Proof.
  apply (proj1 (cache_key_by_names [lit "雨核"; lit "音落"; lit "夜合"]
                                   [lit "夜合"; lit "雨核"; lit "音落"])).
  apply Permutation_sym. apply (perm_trans (perm_swap _ _ _)).
  apply perm_skip. apply perm_swap.
Defined.


Lemma lookup_store_other (key key' : jsstring) (v : Cached)
  (entries : list (jsstring * Cached)) :
  key <> key' ->
  lookupCached key' (storeCached key v entries) = lookupCached key' entries.
Proof.
  intros Hne. induction entries as [|[k w] r IH]; cbn [storeCached lookupCached].
  - assert (E : JS.eqb key' key = false) by (apply eqb_neq; congruence).
    now rewrite E.
  - destruct (JS.eqb key k) eqn:E; cbn [lookupCached].
    + apply eqb_eq in E. subst k.
      assert (E' : JS.eqb key' key = false) by (apply eqb_neq; congruence).
      now rewrite E'.
    + now rewrite IH.
Qed.


Lemma cacheHit_Some (now : Z) (key : jsstring) (cache : Cache) (v : Cached) :
  cacheHit now key cache = Some v <->
  lookupCached key (byNames cache) = Some v
  /\ truthyCached v = true
  /\ (now - timestamp cache < 8000)%Z.
Proof.
  unfold cacheHit, CACHE_EXPIRE_TIME.
  destruct (lookupCached key (byNames cache)) as [w|].
  - destruct (truthyCached w) eqn:Et; cbn [andb].
    + destruct (now - timestamp cache <? 8000)%Z eqn:El.
      * apply Z.ltb_lt in El. split.
        -- intros H. injection H as <-. auto.
        -- intros [H _]. exact H.
      * apply Z.ltb_ge in El. split; [discriminate | intros [_ [_ H]]; lia].
    + split; [discriminate|]. intros [H [H' _]]. injection H as <-. congruence.
  - split; [discriminate | intros [H _]; discriminate].
Qed.



(** X22: the cache has one time stamp for all keys.  After an entry was
    stored for one list of names at [tB], a query for another list that has
    an entry is answered from that entry until 8000 ms after [tB], however
    old the entry is; without that store, a query that comes 8000 ms or more
    after the time stamp makes a fresh reply and stores it. *)
Theorem cache_entry_revived (localFields : Z -> LocalFields)
  (API_BASE : jsstring) (c : SpyConfig) (trigger : jsstring)
  (names : list jsstring) (cache : Cache) (world : World) (v vB : Cached)
  (keyB : jsstring) (tB t : Z) :
  resolveNames API_BASE c trigger world = inr names ->
  inList (cacheKey names) OBJECT_PROTOTYPE_KEYS = false ->
  lookupCached (cacheKey names) (byNames cache) = Some v ->
  truthyCached v = true ->
  keyB <> cacheKey names ->
  ((t - tB < 8000)%Z ->
   queryTrigger localFields API_BASE c trigger t (storeCache keyB vB tB cache) world
   = Replied (Some (replyOfCached c trigger v)) (storeCache keyB vB tB cache))
  /\ ((8000 <= t - timestamp cache)%Z ->
      exists r cache',
        queryTrigger localFields API_BASE c trigger t cache world
        = Replied (Some r) cache'
        /\ timestamp cache' = t
        /\ fst (freshAnswer localFields API_BASE c trigger world names) = r).
Proof.
  intros Hr Hres Hl Ht Hne. unfold queryTrigger. rewrite Hr. cbv zeta.
  rewrite Hres. split.
  - intros Hlt.
    replace (cacheHit t (cacheKey names) (storeCache keyB vB tB cache))
      with (Some v); [reflexivity|].
    symmetry. apply cacheHit_Some. cbn [storeCache byNames timestamp].
    rewrite lookup_store_other by exact Hne. auto.
  - intros Hold.
    assert (Hmiss : cacheHit t (cacheKey names) cache = None).
    { destruct (cacheHit t (cacheKey names) cache) as [w|] eqn:E; [|reflexivity].
      apply cacheHit_Some in E. lia. }
    rewrite Hmiss.
    destruct (freshAnswer localFields API_BASE c trigger world names) as [reply w].
    exists reply, (storeCache (cacheKey names) w t cache). auto.
Qed.

Lemma cache_entry_revived_witness :
  let localFields := fun _ : Z =>
    {| getMonth := 0; getDate := 9; getHours := 8; getMinutes := 5 |} in
  let p := {| Person.name := Some (lit "雨核");
              Person.trigger := Some (lit "时间雨核");
              Person.apiBase := None |} in
  let c := {| persons := Some [Some p]; teamTrigger := None;
              teamNames := None; teamForwardTitle := None;
              heartbeatIntervalSeconds := None |} in
  let world := {| serverNames := None;
                  fetchStatus := fun _ _ => Fetched [];
                  formatClock := fun _ => 105000%Z |} in
  let cache := {| byNames := [(lit "雨核", CachedText (lit "old"))];
                  timestamp := 0 |} in
  let cacheB := storeCache (lit "音落") (CachedText (lit "new")) 100000 cache in
  queryTrigger localFields [] c (lit "时间雨核") 105000 cacheB world
  = Replied (Some (Text (lit "old") true)) cacheB.
Proof.
  intros localFields p c world cache cacheB.
  apply (proj1 (cache_entry_revived localFields [] c (lit "时间雨核")
                  [lit "雨核"] cache world (CachedText (lit "old"))
                  (CachedText (lit "new")) (lit "音落") 100000 105000
                  ltac:(vm_compute; reflexivity) ltac:(vm_compute; reflexivity)
                  ltac:(vm_compute; reflexivity) ltac:(vm_compute; reflexivity)
                  ltac:(vm_compute; discriminate))).
  lia.
Defined.

(** ** The app name of an event, and the noise test *)

Lemma dropWhile_all (p : N -> bool) (l s : jsstring) :
  forallb p l = true -> dropWhile p (l ++ s) = dropWhile p s.
Proof.
  induction l as [|c l IH]; [reflexivity|]. cbn [forallb List.app dropWhile].
  intros H. apply andb_true_iff in H. destruct H as [Hc Hl].
  rewrite Hc. now apply IH.
Qed.

Lemma trim_padded (l e r : jsstring) :
  cleanHead isWhiteSpace e -> cleanHead isWhiteSpace (rev e) ->
  forallb isWhiteSpace l = true -> forallb isWhiteSpace r = true ->
  trim (l ++ e ++ r) = e.
Proof.
  intros Hh He Hl Hr.
  assert (Hrev : forallb isWhiteSpace (rev r) = true).
  { rewrite forallb_forall in *. intros x Hx. apply Hr. now apply in_rev. }
  destruct e as [|c e'] eqn:Ee.
  - cbn [List.app]. unfold trim, trimStart. rewrite dropWhile_all by exact Hl.
    rewrite <- (app_nil_r r), dropWhile_all by exact Hr. reflexivity.
  - rewrite <- Ee in *. unfold trim, trimStart. rewrite dropWhile_all by exact Hl.
    assert (Hd : dropWhile isWhiteSpace (e ++ r) = e ++ r).
    { apply dropWhile_id. subst e. exact Hh. }
    rewrite Hd. unfold trimEnd, trimStart. rewrite rev_app_distr.
    rewrite dropWhile_all by exact Hrev.
    rewrite (dropWhile_id _ _ He). apply rev_involutive.
Qed.

Lemma trim_padding (s : jsstring) :
  exists l r, s = l ++ trim s ++ r
              /\ forallb isWhiteSpace l = true
              /\ forallb isWhiteSpace r = true.
Proof.
  destruct (dropWhile_split isWhiteSpace s) as [l [Hs Hl]].
  destruct (trimEnd_split (trimStart s)) as [r [Hs' Hr]].
  exists l, r. unfold trim. rewrite <- Hs'. auto.
Qed.

(** X23: an app name is noise exactly when it is an entry of the noise list
    with white space, if anything, before and after it; likewise for the
    screen-off list. *)
Theorem noise_up_to_white_space (name : jsstring) :
  (isNoiseApp name = true <->
   exists l e r, name = l ++ e ++ r /\ In e NOISE_APPS
                 /\ forallb isWhiteSpace l = true
                 /\ forallb isWhiteSpace r = true)
  /\ (isScreenOffApp name = true <->
      exists l e r, name = l ++ e ++ r /\ In e SCREEN_OFF_APPS
                    /\ forallb isWhiteSpace l = true
                    /\ forallb isWhiteSpace r = true).
Proof.
  assert (Hboth : forall entries, incl entries NOISE_APPS ->
    (In (trim name) entries <->
     exists l e r, name = l ++ e ++ r /\ In e entries
                   /\ forallb isWhiteSpace l = true
                   /\ forallb isWhiteSpace r = true)).
  { intros entries Hincl. split.
    - intros Hin. destruct (trim_padding name) as [l [r [Hs [Hl Hr]]]].
      exists l, (trim name), r. auto.
    - intros [l [e [r [-> [Hin [Hl Hr]]]]]].
      destruct (noise_entry_shape e (Hincl e Hin)) as [_ [Hh He]].
      now rewrite trim_padded. }
  split.
  - rewrite isNoiseApp_In. apply Hboth. intros x Hx. exact Hx.
  - rewrite isScreenOffApp_In. apply Hboth. exact SCREEN_OFF_incl_NOISE.
Qed.

Lemma noise_up_to_white_space_witness : isNoiseApp (lit " 系统桌面 ") = true.
Proof.
  apply (proj2 (proj1 (noise_up_to_white_space (lit " 系统桌面 ")))).
  exists (lit " "), (lit "系统桌面"), (lit " ").
  split; [vm_compute; reflexivity|]. split; [vm_compute; tauto|].
  split; vm_compute; reflexivity.
Defined.

Lemma trim_nonempty (s : jsstring) :
  s <> [] -> cleanHead isWhiteSpace s ->
  exists c rest, s = c :: rest /\ exists rest', trim s = c :: rest'.
Proof.
  intros Hne Hh. destruct s as [|c rest]; [congruence|].
  exists c, rest. split; [reflexivity|].
  unfold trim, trimStart. rewrite (dropWhile_id _ _ Hh).
  destruct (trimEnd_split (c :: rest)) as [w [Hs Hw]].
  destruct (trimEnd (c :: rest)) as [|d rest'].
  - cbn [List.app] in Hs. subst w. cbn [forallb] in Hw.
    cbn [cleanHead] in Hh. rewrite Hh in Hw. discriminate.
  - cbn [List.app] in Hs. injection Hs as <- _. now exists rest'.
Qed.

(** X24: with a window title that is not blank, the app name of an event is
    not empty, holds no separator and is a prefix of the trimmed window
    title. *)
Theorem app_name_of_window_title (e : ActivityEvent) (wt : jsstring) :
  window_title e = Some wt ->
  trim wt <> [] ->
  getAppNameFromEvent (Some e) <> []
  /\ includes SEP (getAppNameFromEvent (Some e)) = false
  /\ startsWith (getAppNameFromEvent (Some e)) (trim wt) = true.
Proof.
  intros Hwt Hne. unfold getAppNameFromEvent. rewrite Hwt.
  rewrite (optOr_Some_nonblank wt [] Hne). cbv zeta.
  pose proof Hne as Hemp. apply isEmpty_false in Hemp. rewrite Hemp.
  rewrite firstSegment_spec.
  set (t := trim wt) in *.
  set (first := match indexOf SEP t with Some i => firstn i t | None => t end).
  assert (Hfree : includes SEP first = false).
  { unfold first. destruct (indexOf SEP t) as [i|] eqn:E.
    - apply firstn_indexOf_free; [discriminate | exact E].
    - unfold includes. now rewrite E. }
  assert (Hprefix : exists rest, t = first ++ rest).
  { unfold first. destruct (indexOf SEP t) as [i|].
    - exists (skipn i t). symmetry. apply firstn_skipn.
    - exists []. now rewrite app_nil_r. }
  assert (Hhead : cleanHead isWhiteSpace t) by apply trim_cleanHead.
  assert (Hfirst : first <> [] /\ cleanHead isWhiteSpace first).
  { unfold first. destruct (indexOf SEP t) as [i|] eqn:E; [|auto].
    destruct t as [|c rest]; [congruence|].
    destruct i as [|i].
    - exfalso. apply indexOf_Some in E. destruct E as [E _].
      cbn in E. injection E as -> _. cbn [cleanHead] in Hhead. discriminate.
    - cbn [firstn]. split; [discriminate | exact Hhead]. }
  destruct Hfirst as [Hf1 Hf2].
  destruct (trim_nonempty first Hf1 Hf2) as [c [rest [Hc [rest' Ht]]]].
  split; [rewrite Ht; discriminate|].
  split; [now apply includes_trim_false|].
  apply startsWith_spec. destruct Hprefix as [rest0 Hp].
  assert (Htrim : trim first = trimEnd first).
  { unfold trim, trimStart. now rewrite (dropWhile_id _ _ Hf2). }
  rewrite Htrim. destruct (trimEnd_split first) as [w [Hs _]].
  exists (w ++ rest0). rewrite app_assoc, <- Hs. exact Hp.
Qed.

Lemma app_name_of_window_title_witness :
  let e := {| machine := None; window_title := Some (lit " 微信  - com.tencent.mm");
              app := None; access_time := None |} in
  getAppNameFromEvent (Some e) <> []
  /\ includes SEP (getAppNameFromEvent (Some e)) = false
  /\ startsWith (getAppNameFromEvent (Some e))
                (trim (lit " 微信  - com.tencent.mm")) = true.
Proof.
  intros e. apply (app_name_of_window_title e (lit " 微信  - com.tencent.mm")).
  - reflexivity.
  - vm_compute. discriminate.
Defined.

(** X25: the asleep condition is kept by the passing of time: once it holds
    for two events it holds at every later moment. *)
Theorem asleep_stays (now later : Z) (phoneData pcData : option ActivityEvent) :
  (now <= later)%Z ->
  isAsleepCondition now phoneData pcData = true ->
  isAsleepCondition later phoneData pcData = true.
Proof.
  intros Hle. unfold isAsleepCondition. destruct phoneData as [p|]; [|auto].
  destruct (negb _); [auto|]. unfold isPcStale.
  destruct pcData as [pc|]; [|auto].
  destruct (accessTimeOrZero pc) as [|t]; [auto|].
  rewrite !Z.ltb_lt. lia.
Qed.

Lemma asleep_stays_witness :
  let p := {| machine := Some (lit "my-phone");
              window_title := Some (lit "系统桌面");
              app := None; access_time := Some (TimeMs 0) |} in
  let pc := {| machine := Some (lit "desktop"); window_title := None;
               app := None; access_time := Some (TimeMs 0) |} in
  isAsleepCondition 20000000 (Some p) (Some pc) = true.
Proof.
  intros p pc. apply (asleep_stays 15000000 20000000); [lia|].
  vm_compute. reflexivity.
Defined.

(** ** Ties in the ranking, and the blocks of a query *)

Lemma insertItem_filter (s : Z) (x : Item.t) (l : list Item.t) :
  filter (fun y => (Item.seconds y =? s)%Z) (insertItem x l)
  = filter (fun y => (Item.seconds y =? s)%Z) (x :: l).
Proof.
  induction l as [|y r IH]; [reflexivity|]. cbn [insertItem].
  destruct (Item.seconds y <=? Item.seconds x)%Z eqn:E; [reflexivity|].
  apply Z.leb_gt in E. cbn [filter] in *. rewrite IH.
  destruct (Item.seconds x =? s)%Z eqn:Ex; [|reflexivity].
  apply Z.eqb_eq in Ex.
  replace (Item.seconds y =? s)%Z with false; [reflexivity|].
  symmetry. apply Z.eqb_neq. lia.
Qed.

(** X26: buckets with the same number of seconds keep the order in which
    [Object.entries] lists them. *)
Theorem equal_buckets_keep_order (heartbeatSec : Z)
  (deviceEvents : list ActivityEvent) (isPhone : bool) (s : Z) :
  filter (fun item => (Item.seconds item =? s)%Z)
         (sortedItems heartbeatSec deviceEvents isPhone)
  = filter (fun item => (Item.seconds item =? s)%Z)
           (map (itemOf heartbeatSec)
                (Object_entries (tally deviceEvents isPhone))).
Proof.
  unfold sortedItems.
  change (fun kv : jsstring * Z =>
            {| Item.app := fst kv; Item.count := snd kv;
               Item.seconds := (snd kv * heartbeatSec)%Z |})
    with (itemOf heartbeatSec).
  induction (map (itemOf heartbeatSec)
                 (Object_entries (tally deviceEvents isPhone))) as [|x r IH].
  - reflexivity.
  - cbn [sortItems fold_right]. fold (sortItems r).
    rewrite insertItem_filter. cbn [filter]. now rewrite IH.
Qed.

Lemma personBlocks_nth (localFields : Z -> LocalFields) (API_BASE : jsstring)
  (c : SpyConfig) (world : World) (names : list jsstring) (i j : nat) :
  nth_error (personBlocks localFields API_BASE c world i names) j
  = option_map (personBlock localFields API_BASE c world (i + j))
               (nth_error names j).
Proof.
  revert i j. induction names as [|name rest IH]; intros i [|j];
    cbn [personBlocks nth_error option_map]; try reflexivity.
  - now rewrite Nat.add_0_r.
  - rewrite IH. now rewrite Nat.add_succ_r.
Qed.

(** X27: a query makes one block for each name, in the order of the names;
    the block of a name depends on the answer to its own request only: two
    runs that differ in the answer to the [i]-th request alone have the
    same blocks everywhere else; and a request that fails gives the failure
    line of that name. *)
Theorem person_blocks_isolated (localFields : Z -> LocalFields)
  (API_BASE : jsstring) (c : SpyConfig) (world1 world2 : World)
  (names : list jsstring) (i : nat) :
  (forall k url, k <> i ->
     fetchStatus world1 k url = fetchStatus world2 k url
     /\ formatClock world1 k = formatClock world2 k) ->
  List.length (personBlocks localFields API_BASE c world1 0 names)
  = List.length names
  /\ (forall j, j <> i ->
        nth_error (personBlocks localFields API_BASE c world1 0 names) j
        = nth_error (personBlocks localFields API_BASE c world2 0 names) j)
  /\ (forall name message,
        nth_error names i = Some name ->
        fetchStatus world1 i
          (statusUrl API_BASE name PER_PERSON_LIMIT
                     (Some (getApiBaseForName API_BASE c name)))
        = Failed message ->
        nth_error (personBlocks localFields API_BASE c world1 0 names) i
        = Some (lit "【" ++ name ++ lit "】" ++ NL ++ lit "  查询失败："
                ++ message ++ NL)).
Proof.
  intros Hsame. split; [|split].
  - generalize 0. induction names as [|name rest IH]; intros n;
      cbn [personBlocks List.length]; [reflexivity | now rewrite IH].
  - intros j Hj. rewrite !personBlocks_nth. cbn [plus].
    destruct (nth_error names j) as [name|]; [|reflexivity].
    cbn [option_map]. f_equal. unfold personBlock. cbv zeta.
    destruct (Hsame j (statusUrl API_BASE name PER_PERSON_LIMIT
                         (Some (getApiBaseForName API_BASE c name))) Hj)
      as [-> ->].
    reflexivity.
  - intros name message Hname Hfail. rewrite personBlocks_nth, Hname.
    cbn [plus option_map]. unfold personBlock. cbv zeta. now rewrite Hfail.
Qed.

Lemma person_blocks_isolated_witness :
  let localFields := fun _ : Z =>
    {| getMonth := 0; getDate := 9; getHours := 8; getMinutes := 5 |} in
  let c := {| persons := None; teamTrigger := None; teamNames := None;
              teamForwardTitle := None; heartbeatIntervalSeconds := None |} in
  let world := {| serverNames := None;
                  fetchStatus := fun k _ =>
                    match k with
                    | 1 => Failed (lit "Request timeout")
                    | _ => Fetched []
                    end;
                  formatClock := fun _ => 1000%Z |} in
  nth_error (personBlocks localFields [] c world 0 [lit "雨核"; lit "音落"]) 1
  = Some (lit "【" ++ lit "音落" ++ lit "】" ++ NL ++ lit "  查询失败："
          ++ lit "Request timeout" ++ NL).
Proof.
  intros localFields c world.
  apply (proj2 (proj2 (person_blocks_isolated localFields [] c world world
                         [lit "雨核"; lit "音落"] 1
                         (fun k url _ => conj eq_refl eq_refl)))
           (lit "音落") (lit "Request timeout")).
  - reflexivity.
  - vm_compute. reflexivity.
Defined.
